(** * go-loadbalance: a round-robin HTTP load balancer (LB35.go)

    A shallow embedding of the backend pool, the health-check goroutine and
    the request handler of [LB35.go], and the properties of the
    specification that concern them.

    Shared memory (the [nodes] slice of [*Backend] and [requestCounter])
    is an explicit state; a Go statement sequence is a computation in the
    monad [Go], which threads that state, records the shared-memory
    accesses and the output a computation performs, and can panic. *)

From Stdlib Require Import ZArith Lia Znumtheory.
From stdpp Require Import base list strings.

Local Open Scope Z_scope.

(** ** Data model *)

(** The fields of [url.URL] the program reads. *)
Record url_URL := { Scheme : string; Host : string }.

(** [httputil.ReverseProxy]: the program builds one per backend with
    [NewSingleHostReverseProxy(u)] and a [Director] that rewrites the request
    to [u]; the handle is identified by that target. *)
Record httputil_ReverseProxy := { Target : url_URL }.

Record Config := { Port : string; Backends : list string }.

Record Backend := {
  URL : url_URL;
  Alive : bool;
  ReverseProxy : httputil_ReverseProxy
}.

(** [uint64] arithmetic wraps modulo [2^64]. *)
Definition uint64_modulus : Z := 2 ^ 64.
Definition wrap64 (x : Z) : Z := x mod uint64_modulus.

(** ** Shared memory, events and the monad of Go computations *)

(** The two goroutine-shared variables: [requestCounter] and the [Alive]
    field of the backend [nodes[i]] points to. *)
Inductive location :=
  | LrequestCounter
  | LAlive (i : nat).

(** How a statement accesses a shared location: through [sync/atomic], or by
    an ordinary load or store. *)
Inductive access_mode := AtomicAccess | PlainAccess.

(** What [net.DialTimeout] can answer. *)
Inductive dial_error :=
  | DialTimedOut
  | ConnectionRefused
  | NoSuchHost
  | OtherDialError (msg : string).

Inductive dial_result :=
  | DialOk (conn : nat)
  | DialErr (e : dial_error).

(** The lines the program prints, by content. *)
Inductive log_line :=
  | LogParseFailed (ip : string)                (* line 86 *)
  | LogRevived (host : string)                  (* line 131 *)
  | LogDown (host : string)                     (* line 133 *)
  | LogRouted (current : Z) (host : string).    (* line 174 *)

Inductive event :=
  | EvLoad (m : access_mode) (l : location) (v : bool)
  | EvStore (m : access_mode) (l : location) (v : bool)
  | EvAdd (m : access_mode) (l : location) (new : Z)
  | EvPrintf (line : log_line)
  | EvDial (network address : string) (timeout_s : Z) (r : dial_result)
  | EvClose (conn : nat)
  | EvSleep (seconds : Z).

Inductive panic :=
  | DivideByZero
  | IndexOutOfRange
  | ConfigError (msg : string).

Record shared := {
  nodes : list Backend;
  requestCounter : Z
}.

(** The outcome of running a computation: its result (or the panic that
    stopped it), the shared memory it leaves, and the events it performed,
    oldest first. *)
Inductive outcome (A : Type) :=
  | Returns (a : A) (s : shared) (evs : list event)
  | Panics (p : panic) (s : shared) (evs : list event).
Arguments Returns {A} a s evs.
Arguments Panics {A} p s evs.

Definition Go (A : Type) : Type := shared -> outcome A.

Definition final {A} (o : outcome A) : shared :=
  match o with Returns _ s _ | Panics _ s _ => s end.

Definition events {A} (o : outcome A) : list event :=
  match o with Returns _ _ evs | Panics _ _ evs => evs end.

Definition result {A} (o : outcome A) : option A :=
  match o with Returns a _ _ => Some a | Panics _ _ _ => None end.

Definition ret {A} (a : A) : Go A := fun s => Returns a s [].

Definition bind {A B} (m : Go A) (k : A -> Go B) : Go B := fun s =>
  match m s with
  | Returns a s1 e1 =>
      match k a s1 with
      | Returns b s2 e2 => Returns b s2 (e1 ++ e2)
      | Panics p s2 e2 => Panics p s2 (e1 ++ e2)
      end
  | Panics p s1 e1 => Panics p s1 e1
  end.

Declare Scope go_scope.
Delimit Scope go_scope with go.
Notation "x <- c1 ;; c2" := (bind c1 (fun x => c2))
  (at level 100, c1 at next level, right associativity,
   format "'[v' x  <-  c1  ;;  '/' c2 ']'") : go_scope.
Notation "c1 ;;; c2" := (bind c1 (fun _ => c2))
  (at level 100, right associativity) : go_scope.
Local Open Scope go_scope.

Definition throw {A} (p : panic) : Go A := fun s => Panics p s [].
Definition emit (e : event) : Go unit := fun s => Returns tt s [e].

(** *** Primitive statements *)

(** [atomic.AddUint64(&requestCounter, delta)]: returns the new value. *)
Definition atomic_AddUint64 (delta : Z) : Go Z := fun s =>
  let new := wrap64 (requestCounter s + delta) in
  Returns new {| nodes := nodes s; requestCounter := new |}
          [EvAdd AtomicAccess LrequestCounter new].

(** [uint64(len(nodes))]. *)
Definition len_nodes : Go Z := fun s =>
  Returns (Z.of_nat (length (nodes s))) s [].

(** [x % y] on [uint64]: panics when [y] is zero. *)
Definition umod (x y : Z) : Go Z :=
  if y =? 0 then throw DivideByZero else ret (x mod y).

(** [nodes[index]]: the pointer stored at [index], here the position itself;
    panics out of range. *)
Definition index_nodes (index : Z) : Go nat := fun s =>
  match nodes s !! Z.to_nat index with
  | Some _ => Returns (Z.to_nat index) s []
  | None => Panics IndexOutOfRange s []
  end.

(** The immutable fields of the backend a pointer refers to. *)
Definition node_URL (p : nat) : Go url_URL := fun s =>
  match nodes s !! p with
  | Some nd => Returns (URL nd) s []
  | None => Panics IndexOutOfRange s []
  end.

Definition node_ReverseProxy (p : nat) : Go httputil_ReverseProxy := fun s =>
  match nodes s !! p with
  | Some nd => Returns (ReverseProxy nd) s []
  | None => Panics IndexOutOfRange s []
  end.

(** [p.Alive] read as an ordinary field load. *)
Definition load_Alive (p : nat) : Go bool := fun s =>
  match nodes s !! p with
  | Some nd => Returns (Alive nd) s [EvLoad PlainAccess (LAlive p) (Alive nd)]
  | None => Panics IndexOutOfRange s []
  end.

Definition set_Alive (v : bool) (nd : Backend) : Backend :=
  {| URL := URL nd; Alive := v; ReverseProxy := ReverseProxy nd |}.

(** [p.Alive = v] as an ordinary field store. *)
Definition store_Alive (p : nat) (v : bool) : Go unit := fun s =>
  match nodes s !! p with
  | Some nd =>
      Returns tt {| nodes := <[p := set_Alive v nd]> (nodes s);
                    requestCounter := requestCounter s |}
              [EvStore PlainAccess (LAlive p) v]
  | None => Panics IndexOutOfRange s []
  end.

Definition printf (line : log_line) : Go unit := emit (EvPrintf line).

(** ** The reachability probe and the health-check goroutine (lines 18-34, 119-141) *)

(** [net.DialTimeout(network, address, timeout)]: the answer comes from the
    network, here the oracle [dial]. *)
Definition net_DialTimeout (dial : string -> dial_result)
    (network address : string) (timeout_s : Z) : Go dial_result := fun s =>
  Returns (dial address) s [EvDial network address timeout_s (dial address)].

Definition conn_Close (conn : nat) : Go unit := emit (EvClose conn).

Definition isAlive (dial : string -> dial_result) (u : url_URL) : Go bool :=
  r <- net_DialTimeout dial "tcp" (Host u) 2 ;;
  match r with
  | DialErr _ => ret false
  | DialOk conn => conn_Close conn ;;; ret true
  end.

(** The body of [for _, node := range nodes] (lines 122-135). *)
Definition checkNode (dial : string -> dial_result) (node : nat) : Go unit :=
  u <- node_URL node ;;
  alive <- isAlive dial u ;;
  stored <- load_Alive node ;;
  if negb (Bool.eqb stored alive) then
    store_Alive node alive ;;;
    if alive then printf (LogRevived (Host u)) else printf (LogDown (Host u))
  else ret tt.

(** [range nodes] from position [i], with [remaining] elements to go. The
    oracle [net i] answers the dial made for the node at position [i]. *)
Fixpoint rangeNodes (net : nat -> string -> dial_result) (i remaining : nat)
    : Go unit :=
  match remaining with
  | O => ret tt
  | S k => checkNode (net i) i ;;; rangeNodes net (S i) k
  end.

(** One pass of the inner loop over all nodes. *)
Definition sweep (net : nat -> string -> dial_result) : Go unit := fun s =>
  rangeNodes net 0 (length (nodes s)) s.

(** The first [rounds] iterations of the goroutine's [for { ... }];
    [net r] is the network during iteration [r]. *)
Fixpoint healthCheck (rounds : nat) (net : nat -> nat -> string -> dial_result)
    : Go unit :=
  match rounds with
  | O => ret tt
  | S k =>
      sweep (net 0%nat) ;;;
      emit (EvSleep 2) ;;;
      healthCheck k (fun r => net (S r))
  end.

(** ** The request handler (lines 149-190) *)

Inductive response :=
  | AbortWithStatus (code : Z)
  | RespString (code : Z) (body : string)
  | ServeHTTP (targetNode : nat) (proxy : httputil_ReverseProxy).

(** The body of the selection loop (lines 161-176): [Some candidate] when
    the loop breaks with [targetNode = candidate]. *)
Definition attempt : Go (option nat) :=
  current <- atomic_AddUint64 1 ;;
  n <- len_nodes ;;
  index <- umod current n ;;
  candidate <- index_nodes index ;;
  alive <- load_Alive candidate ;;
  if alive then
    u <- node_URL candidate ;;
    printf (LogRouted current (Host u)) ;;;
    ret (Some candidate)
  else ret None.

(** [for i := 0; i < len(nodes); i++ { ... }] with [remaining] =
    [len(nodes) - i]; the result is [targetNode]. *)
Fixpoint selectLoop (remaining : nat) : Go (option nat) :=
  match remaining with
  | O => ret None
  | S k =>
      t <- attempt ;;
      match t with
      | Some candidate => ret (Some candidate)
      | None => selectLoop k
      end
  end.

Definition faviconPath : string := "/favicon.ico".
Definition allDownBody : string := "服务器全军覆没".

Definition handler (path : string) : Go response :=
  if String.eqb path faviconPath then ret (AbortWithStatus 204)
  else
    n <- len_nodes ;;
    targetNode <- selectLoop (Z.to_nat n) ;;
    match targetNode with
    | None => ret (RespString 502 allDownBody)
    | Some t =>
        proxy <- node_ReverseProxy t ;;
        ret (ServeHTTP t proxy)
    end.

(** Requests served one after the other. *)
Fixpoint serveAll (paths : list string) : Go (list response) :=
  match paths with
  | [] => ret []
  | path :: rest =>
      r <- handler path ;;
      rs <- serveAll rest ;;
      ret (r :: rs)
  end.

(** ** Start-up (lines 48-116) *)

Inductive process :=
  | Crashed (p : panic)
  | Serving (port : string) (s : shared) (startup : list event).

Section Startup.
(** The library calls of start-up, as the environment answers them. *)
Variable os_ReadFile : string -> list Byte.byte + string.
Variable json_Unmarshal : list Byte.byte -> Config + string.
Variable url_Parse : string -> url_URL + string.

Definition LoadConfig (filename : string) : Config + string :=
  match os_ReadFile filename with
  | inr err => inr err
  | inl data =>
      match json_Unmarshal data with
      | inr err => inr err
      | inl config => inl config
      end
  end.

(** One iteration of [for _, ip := range config.Backends] (lines 81-116). *)
Definition addBackend (acc : list Backend * list event) (ip : string)
    : list Backend * list event :=
  match url_Parse ip with
  | inr _ => (acc.1, acc.2 ++ [EvPrintf (LogParseFailed ip)])
  | inl u =>
      let proxy := {| Target := u |} in
      let node := {| URL := u; Alive := true; ReverseProxy := proxy |} in
      (acc.1 ++ [node], acc.2)
  end.

Definition buildNodes (ips : list string) : list Backend * list event :=
  fold_left addBackend ips ([], []).

(** [main]: [Serving port s evs] stands for the process that has started
    the health-check goroutine on [s] and answers every request with
    [handler] on [s], after printing [evs]. *)
Definition main : process :=
  match LoadConfig "config.json" with
  | inr err => Crashed (ConfigError err)
  | inl config =>
      let built := buildNodes (Backends config) in
      Serving (Port config)
              {| nodes := built.1; requestCounter := 0 |}
              built.2
  end.
End Startup.

(** * Vocabulary of the statements *)

(** The value the [j]-th increment after counter value [c] returns. *)
Definition ticket (c : Z) (j : nat) : Z := wrap64 (c + Z.of_nat j).

(** The position a ticket selects in a pool of [n] backends. *)
Definition slot (n : nat) (t : Z) : nat := Z.to_nat (t mod Z.of_nat n).

Definition with_counter (s : shared) (c : Z) : shared :=
  {| nodes := nodes s; requestCounter := c |}.

(** The shared memory after [m] increments. *)
Definition after (s : shared) (m : nat) : shared :=
  match m with
  | O => s
  | S _ => with_counter s (ticket (requestCounter s) m)
  end.

Definition alive_at (l : list Backend) (i : nat) : bool :=
  match l !! i with
  | Some nd => Alive nd
  | None => false
  end.

(** What the [j]-th selection attempt of a call that starts at counter value
    [c] performs, when no other goroutine runs in between. *)
Definition attempt_events (l : list Backend) (c : Z) (j : nat) : list event :=
  let t := ticket c j in
  let i := slot (length l) t in
  match l !! i with
  | Some nd =>
      EvAdd AtomicAccess LrequestCounter t
      :: EvLoad PlainAccess (LAlive i) (Alive nd)
      :: (if Alive nd then [EvPrintf (LogRouted t (Host (URL nd)))] else [])
  | None => []
  end.

Definition is_add (e : event) : bool :=
  match e with EvAdd _ LrequestCounter _ => true | _ => false end.

Definition is_printf (e : event) : bool :=
  match e with EvPrintf _ => true | _ => false end.

Definition targetOf (r : response) : option nat :=
  match r with
  | ServeHTTP t _ => Some t
  | _ => None
  end.

Definition is_alive_load (e : event) : bool :=
  match e with EvLoad _ (LAlive _) _ => true | _ => false end.

Definition is_store (e : event) : bool :=
  match e with EvStore _ _ _ => true | _ => false end.

(** The number of times a run incremented [requestCounter]. *)
Definition increments (evs : list event) : nat :=
  length (filter (fun e => is_add e = true) evs).

(** ** Pools used in the examples *)

Definition mkBackend (host : string) (alive : bool) : Backend :=
  let u := {| Scheme := "http"; Host := host |} in
  {| URL := u; Alive := alive; ReverseProxy := {| Target := u |} |}.

(** The pool of backends named A, B, C, ... with the given flags. *)
Definition pool (flags : list bool) (counter : Z) : shared :=
  {| nodes :=
       imap (fun i a =>
               mkBackend (String (Ascii.ascii_of_nat (65 + i)) EmptyString) a)
            flags;
     requestCounter := counter |}.

(** ** The health check *)

Definition reachable (r : dial_result) : bool :=
  match r with
  | DialOk _ => true
  | DialErr _ => false
  end.

(** What the probe of the backend at position [i] observes during a sweep
    on network [net]. *)
Definition observed (net : nat -> string -> dial_result) (i : nat)
    (nd : Backend) : bool :=
  reachable (net i (Host (URL nd))).

Definition transition_line (host : string) (alive : bool) : log_line :=
  if alive then LogRevived host else LogDown host.

(** The events of one probe. *)
Definition probe_events (dial : string -> dial_result) (u : url_URL)
    : list event :=
  EvDial "tcp" (Host u) 2 (dial (Host u))
  :: match dial (Host u) with
     | DialOk conn => [EvClose conn]
     | DialErr _ => []
     end.

(** The events of the check of one backend. *)
Definition check_events (dial : string -> dial_result) (i : nat)
    (nd : Backend) : list event :=
  let alive := reachable (dial (Host (URL nd))) in
  probe_events dial (URL nd)
  ++ EvLoad PlainAccess (LAlive i) (Alive nd)
  :: (if Bool.eqb (Alive nd) alive then []
      else [EvStore PlainAccess (LAlive i) alive;
            EvPrintf (transition_line (Host (URL nd)) alive)]).

(** The backends whose observation in a sweep differs from their stored
    flag, in pool order: position, backend as stored, observation. *)
Definition transitions (net : nat -> string -> dial_result)
    (l : list Backend) : list (nat * Backend * bool) :=
  filter (fun x => x.2 <> Alive x.1.2)
         (imap (fun i nd => (i, nd, observed net i nd)) l).

Definition is_sleep (e : event) : bool :=
  match e with EvSleep _ => true | _ => false end.

(** The events a handler may perform: an atomic increment of the counter,
    an ordinary load of a flag, the routing line. *)
Definition is_handler_event (e : event) : bool :=
  match e with
  | EvAdd AtomicAccess LrequestCounter _ => true
  | EvLoad PlainAccess (LAlive _) _ => true
  | EvPrintf (LogRouted _ _) => true
  | _ => false
  end.

(** ** Concurrent accesses *)

(** The shared-memory access an event is: mode, location, and whether it
    writes. *)
Definition access_of (e : event) : option (access_mode * location * bool) :=
  match e with
  | EvLoad m l _ => Some (m, l, false)
  | EvStore m l _ => Some (m, l, true)
  | EvAdd m l _ => Some (m, l, true)
  | _ => None
  end.

Definition location_eqb (l1 l2 : location) : bool :=
  match l1, l2 with
  | LrequestCounter, LrequestCounter => true
  | LAlive i, LAlive j => Nat.eqb i j
  | _, _ => false
  end.

Definition is_atomic (m : access_mode) : bool :=
  match m with AtomicAccess => true | PlainAccess => false end.

(** Two accesses by different goroutines that no synchronisation orders
    form a data race when they touch the same location, one of them writes,
    and they are not both [sync/atomic] operations. *)
Definition data_race (e1 e2 : event) : bool :=
  match access_of e1, access_of e2 with
  | Some (m1, l1, w1), Some (m2, l2, w2) =>
      location_eqb l1 l2 && (w1 || w2) && negb (is_atomic m1 && is_atomic m2)
  | _, _ => false
  end.

(** ** Environments used in the examples *)

Definition refusing (i : nat) (host : string) : dial_result :=
  DialErr ConnectionRefused.

Definition fixture_ReadFile (name : string) : list Byte.byte + string :=
  if String.eqb name "config.json" then inl []
  else inr "no such file or directory"%string.

Definition fixture_Unmarshal (config : Config) (data : list Byte.byte)
    : Config + string :=
  inl config.

(** Accepts [http://host] and rejects everything else. *)
Definition fixture_Parse (ip : string) : url_URL + string :=
  if String.prefix "http://" ip
  then inl {| Scheme := "http";
              Host := String.substring 7 (String.length ip - 7) ip |}
  else inr "missing protocol scheme"%string.

(** ** Start-up *)

(** The backend [main] builds for a parsed URL (lines 91-112). *)
Definition newBackend (u : url_URL) : Backend :=
  {| URL := u; Alive := true; ReverseProxy := {| Target := u |} |}.

(** The backends of the entries that parse, in order. *)
Definition accepted (url_Parse : string -> url_URL + string)
    (ips : list string) : list Backend :=
  flat_map (fun ip => match url_Parse ip with
                      | inl u => [newBackend u]
                      | inr _ => []
                      end) ips.

(** The lines printed for the entries that do not parse, in order. *)
Definition rejections (url_Parse : string -> url_URL + string)
    (ips : list string) : list event :=
  flat_map (fun ip => match url_Parse ip with
                      | inl _ => []
                      | inr _ => [EvPrintf (LogParseFailed ip)]
                      end) ips.

Definition flag_access_plain (e : event) : bool :=
  match access_of e with
  | Some (m, LAlive _, _) => negb (is_atomic m)
  | _ => true
  end.

(** ** A handler among other handlers *)

(** [k] increments of the counter by the handlers of other requests. *)
Fixpoint othersAdd (k : nat) : Go unit :=
  match k with
  | O => ret tt
  | S k' => atomic_AddUint64 1 ;;; othersAdd k'
  end.

(** The selection loop of one request when, before its [j]-th attempt, the
    handlers of other requests increment the counter [others[j]] times
    (none once the list is exhausted). *)
Fixpoint selectLoopAmong (others : list nat) (remaining : nat)
    : Go (option nat) :=
  match remaining with
  | O => ret None
  | S k =>
      othersAdd (hd 0%nat others) ;;;
      t <- attempt ;;
      match t with
      | Some candidate => ret (Some candidate)
      | None => selectLoopAmong (tl others) k
      end
  end.

Definition handlerAmong (others : list nat) (path : string) : Go response :=
  if String.eqb path faviconPath then ret (AbortWithStatus 204)
  else
    n <- len_nodes ;;
    targetNode <- selectLoopAmong others (Z.to_nat n) ;;
    match targetNode with
    | None => ret (RespString 502 allDownBody)
    | Some t =>
        proxy <- node_ReverseProxy t ;;
        ret (ServeHTTP t proxy)
    end.

(** * The rest of the program *)

(** ** The proxy's Director (lines 94-98) *)

(** The fields of [http.Request] the program touches: [req.Host], the scheme
    and host of [req.URL], and [req.URL.Path]. *)
Record http_Request := {
  req_Host : string;
  req_URL : url_URL;
  req_Path : string
}.

(** The [Director] closure built for the backend URL [u]. *)
Definition Director (u : url_URL) (req : http_Request) : http_Request :=
  {| req_Host := Host u;
     req_URL := {| Scheme := Scheme u; Host := Host u |};
     req_Path := req_Path req |}.

(** The request a response hands to the backend: [ServeHTTP] runs the
    proxy's [Director], which was built for the proxy's target. *)
Definition outgoing (r : response) (req : http_Request)
    : option http_Request :=
  match r with
  | ServeHTTP _ proxy => Some (Director (Target proxy) req)
  | _ => None
  end.

(** ** The life of the process *)

(** What the process does after start-up, one activity after the other: it
    answers a request, or the health-check goroutine makes a sweep on the
    network of the moment. *)
Inductive activity :=
  | Request (path : string)
  | Sweep (net : nat -> string -> dial_result).

Fixpoint live (acts : list activity) : Go (list response) :=
  match acts with
  | [] => ret []
  | Request path :: rest =>
      r <- handler path ;;
      rs <- live rest ;;
      ret (r :: rs)
  | Sweep net :: rest =>
      sweep net ;;;
      live rest
  end.

(** ** More vocabulary *)

Definition is_dispatch (path : string) : bool :=
  negb (String.eqb path faviconPath).

Definition is_favicon_response (r : response) : bool :=
  match r with
  | AbortWithStatus _ => true
  | _ => false
  end.

(** Every backend's proxy handle was built for the backend's own URL. *)
Definition proxy_bound (l : list Backend) : Prop :=
  Forall (fun nd => Target (ReverseProxy nd) = URL nd) l.

(** The connections a run obtained from successful dials, and the
    connections it closed, oldest first. *)
Definition dialed_conns (evs : list event) : list nat :=
  flat_map (fun e => match e with
                     | EvDial _ _ _ (DialOk conn) => [conn]
                     | _ => []
                     end) evs.

Definition closed_conns (evs : list event) : list nat :=
  flat_map (fun e => match e with
                     | EvClose conn => [conn]
                     | _ => []
                     end) evs.

(** The dials of a run, oldest first: address and answer. *)
Definition dials (evs : list event) : list (string * dial_result) :=
  flat_map (fun e => match e with
                     | EvDial _ address _ r => [(address, r)]
                     | _ => []
                     end) evs.

(** The URLs of the entries that parse, in order. *)
Definition parsed (url_Parse : string -> url_URL + string)
    (ips : list string) : list url_URL :=
  flat_map (fun ip => match url_Parse ip with
                      | inl u => [u]
                      | inr _ => []
                      end) ips.

Definition is_request (a : activity) : bool :=
  match a with
  | Request _ => true
  | Sweep _ => false
  end.

(** The requests that reach the selection loop. *)
Definition is_dispatch_request (a : activity) : bool :=
  match a with
  | Request path => is_dispatch path
  | Sweep _ => false
  end.

Definition is_favicon_request (a : activity) : bool :=
  match a with
  | Request path => String.eqb path faviconPath
  | Sweep _ => false
  end.

(** The counter after [m] increments from [c]. *)
Definition counter_after (c : Z) (m : nat) : Z :=
  match m with
  | O => c
  | S _ => ticket c m
  end.

(** A network on which every dial succeeds. *)
Definition accepting (i : nat) (host : string) : dial_result := DialOk i.

Definition sampleConfig : Config :=
  {| Port := ":8080";
     Backends := ["http://a:1"; "://bad"; "http://b:2"] |}.

(** * Properties *)

(** ** Arithmetic of tickets *)

Lemma uint64_modulus_pos : 0 < uint64_modulus.
Proof. reflexivity. Qed.

Lemma wrap64_range x : 0 <= wrap64 x < uint64_modulus.
Proof. apply Z.mod_pos_bound, uint64_modulus_pos. Qed.

Lemma wrap64_small x : 0 <= x < uint64_modulus -> wrap64 x = x.
Proof. apply Z.mod_small. Qed.

Lemma ticket_shift c k j : ticket (ticket c k) j = ticket c (k + j).
Proof.
  unfold ticket, wrap64. rewrite Zplus_mod_idemp_l. f_equal. lia.
Qed.

Lemma ticket_small c j :
  0 <= c -> c + Z.of_nat j < uint64_modulus -> ticket c j = c + Z.of_nat j.
Proof. intros. apply wrap64_small. lia. Qed.

Lemma slot_lt n t : (0 < n)%nat -> (slot n t < n)%nat.
Proof.
  intros Hn. unfold slot.
  pose proof (Z.mod_pos_bound t (Z.of_nat n) ltac:(lia)). lia.
Qed.

(** When the tickets of a call do not wrap around [2^64], or the pool size
    divides [2^64], they select the same positions as [c+1 .. c+n]. *)
Lemma slot_ticket_unwrapped n c j :
  (1 <= n)%nat ->
  (0 <= c /\ c + Z.of_nat j < uint64_modulus) \/
    uint64_modulus mod Z.of_nat n = 0 ->
  slot n (ticket c j) = Z.to_nat ((c + Z.of_nat j) mod Z.of_nat n).
Proof.
  intros Hn [[Hc Hj] | Hdiv]; unfold slot.
  - now rewrite ticket_small.
  - unfold ticket, wrap64. f_equal.
    apply Z.mod_mod_divide, Z.mod_divide; [lia | exact Hdiv].
Qed.

(** While the counter does not wrap around, or when the pool size divides
    [2^64], the next ticket selects the next position, modulo the pool
    size. *)
Lemma slot_next n c j :
  (1 <= n)%nat ->
  (0 <= c /\ c + Z.of_nat (S j) < uint64_modulus) \/
    uint64_modulus mod Z.of_nat n = 0 ->
  slot n (ticket c (S j)) = ((slot n (ticket c j) + 1) mod n)%nat.
Proof.
  intros Hn Hwrap.
  assert (Hj : (0 <= c /\ c + Z.of_nat j < uint64_modulus) \/
                 uint64_modulus mod Z.of_nat n = 0).
  { destruct Hwrap as [[Hc Hlt]|Hdiv]; [left; lia | right; exact Hdiv]. }
  rewrite (slot_ticket_unwrapped n c (S j) Hn Hwrap).
  rewrite (slot_ticket_unwrapped n c j Hn Hj).
  apply Nat2Z.inj. rewrite Nat2Z.inj_mod, Nat2Z.inj_add.
  pose proof (Z.mod_pos_bound (c + Z.of_nat j) (Z.of_nat n) ltac:(lia)).
  pose proof (Z.mod_pos_bound (c + Z.of_nat (S j)) (Z.of_nat n) ltac:(lia)).
  rewrite !Z2Nat.id by lia.
  rewrite Zplus_mod_idemp_l. f_equal. lia.
Qed.

(** [n] consecutive integers reach every residue modulo [n]. *)
Lemma window_covers n c a :
  (a < n)%nat ->
  exists j, (1 <= j <= n)%nat /\
    Z.to_nat ((c + Z.of_nat j) mod Z.of_nat n) = a.
Proof.
  intros Ha.
  pose proof (Z.mod_pos_bound (Z.of_nat a - c - 1) (Z.of_nat n) ltac:(lia))
    as Hb.
  exists (S (Z.to_nat ((Z.of_nat a - c - 1) mod Z.of_nat n))).
  split; [lia|].
  rewrite Nat2Z.inj_succ, Z2Nat.id by lia.
  replace (c + Z.succ ((Z.of_nat a - c - 1) mod Z.of_nat n))
    with ((c + 1) + (Z.of_nat a - c - 1) mod Z.of_nat n) by lia.
  rewrite Zplus_mod_idemp_r.
  replace (c + 1 + (Z.of_nat a - c - 1)) with (Z.of_nat a) by lia.
  rewrite Z.mod_small by lia. apply Nat2Z.id.
Qed.

Lemma after_after s k j : after (after s k) j = after s (k + j).
Proof.
  destruct k as [|k]; [reflexivity|].
  destruct j as [|j]; simpl.
  - now rewrite Nat.add_0_r.
  - unfold with_counter; simpl. now rewrite ticket_shift.
Qed.

Lemma nodes_after s m : nodes (after s m) = nodes s.
Proof. now destruct m. Qed.

(** ** Running the monad *)

Lemma bind_Returns {A B} (m : Go A) (k : A -> Go B) s a s1 e1 :
  m s = Returns a s1 e1 ->
  bind m k s =
    match k a s1 with
    | Returns b s2 e2 => Returns b s2 (e1 ++ e2)
    | Panics p s2 e2 => Panics p s2 (e1 ++ e2)
    end.
Proof. intros H. unfold bind. now rewrite H. Qed.

Lemma bind_ret_l {A B} (a : A) (k : A -> Go B) s : bind (ret a) k s = k a s.
Proof. unfold bind, ret. now destruct (k a s). Qed.

Lemma bind_ext {A B} (m : Go A) (k k' : A -> Go B) s :
  (forall a s', k a s' = k' a s') -> bind m k s = bind m k' s.
Proof. intros H. unfold bind. destruct (m s); [now rewrite H | reflexivity]. Qed.

Lemma bind_len_nodes {B} (k : Z -> Go B) s :
  bind len_nodes k s = k (Z.of_nat (length (nodes s))) s.
Proof. unfold bind, len_nodes. now destruct (k _ s). Qed.

(** ** Lists of events and of backends *)


Lemma filter_concat_imap {A} (P : event -> Prop) `{!forall e, Decision (P e)}
    (g : nat -> A -> list event) (l : list A) :
  filter P (concat (imap g l)) = concat (imap (fun i x => filter P (g i x)) l).
Proof.
  revert g. induction l as [|x l IH]; intros g; [reflexivity|].
  rewrite !imap_cons. simpl. now rewrite filter_app, IH.
Qed.

Lemma map_filter_imap {A B C} (Q : B -> Prop) `{!forall b, Decision (Q b)}
    (f : B -> C) (h : nat -> A -> B) (l : list A) :
  map f (filter Q (imap h l)) =
  concat (imap (fun i x => if decide (Q (h i x)) then [f (h i x)] else []) l).
Proof.
  revert h. induction l as [|x l IH]; intros h; [reflexivity|].
  rewrite !imap_cons, filter_cons. simpl.
  destruct (decide (Q (h 0%nat x))); simpl; now rewrite IH.
Qed.

Lemma Forall_concat_imap {A} (P : event -> Prop)
    (g : nat -> A -> list event) (l : list A) :
  (forall i x, Forall P (g i x)) -> Forall P (concat (imap g l)).
Proof.
  revert g. induction l as [|x l IH]; intros g Hg; [constructor|].
  rewrite imap_cons. simpl. apply Forall_app. split; [apply Hg|].
  apply IH. intros i y. apply Hg.
Qed.

Lemma map_imap_preserved {B} (proj : Backend -> B)
    (g : nat -> Backend -> Backend) (l : list Backend) :
  (forall i nd, proj (g i nd) = proj nd) ->
  map proj (imap g l) = map proj l.
Proof.
  revert g. induction l as [|nd l IH]; intros g Hg; [reflexivity|].
  rewrite imap_cons. simpl. rewrite Hg. f_equal.
  apply IH. intros i x. apply Hg.
Qed.

Lemma nonempty_length (l : list Backend) : (1 <= length l)%nat -> l <> [].
Proof. destruct l; simpl; [lia | congruence]. Qed.

Lemma all_dead_alive_at l i :
  Forall (fun nd => Alive nd = false) l -> alive_at l i = false.
Proof.
  intros H. unfold alive_at. destruct (l !! i) as [nd|] eqn:E; [|reflexivity].
  exact (proj1 (Forall_lookup _ _) H _ _ E).
Qed.

Lemma all_alive_alive_at l i :
  Forall (fun nd => Alive nd = true) l -> (i < length l)%nat ->
  alive_at l i = true.
Proof.
  intros H Hi. unfold alive_at.
  destruct (lookup_lt_is_Some_2 l i Hi) as [nd E]. rewrite E.
  exact (proj1 (Forall_lookup _ _) H _ _ E).
Qed.

(** ** One selection attempt (lines 161-176) *)

Lemma attempt_run s nd :
  let t := ticket (requestCounter s) 1 in
  let i := slot (length (nodes s)) t in
  nodes s !! i = Some nd ->
  attempt s =
    Returns (if Alive nd then Some i else None) (with_counter s t)
            (attempt_events (nodes s) (requestCounter s) 1).
Proof.
  intros t i Hnd.
  assert (Hlen : (0 < length (nodes s))%nat).
  { apply lookup_lt_Some in Hnd. lia. }
  unfold attempt_events. fold t. fold i. rewrite Hnd.
  unfold attempt, bind, atomic_AddUint64, len_nodes, umod,
    index_nodes, load_Alive, node_URL, printf, emit, ret, throw. simpl.
  destruct (Z.eqb_spec (Z.of_nat (length (nodes s))) 0) as [E|_]; [lia|].
  simpl. change (Z.to_nat (wrap64 (requestCounter s + 1) mod
                           Z.of_nat (length (nodes s)))) with i.
  repeat (rewrite ?Hnd; simpl).
  destruct (Alive nd); simpl; rewrite ?Hnd; reflexivity.
Qed.

Lemma attempt_events_shift l c j :
  attempt_events l (ticket c 1) j = attempt_events l c (S j).
Proof. unfold attempt_events. now rewrite ticket_shift. Qed.

Lemma flat_map_attempts_shift l c m :
  flat_map (attempt_events l (ticket c 1)) (seq 1 m) =
  flat_map (attempt_events l c) (seq 2 m).
Proof.
  rewrite <- (seq_shift m 1), !flat_map_concat_map, map_map.
  f_equal. apply map_ext. intros j. apply attempt_events_shift.
Qed.

Lemma attempt_events_alive_at l c j :
  l <> [] ->
  let t := ticket c j in
  let i := slot (length l) t in
  exists nd, l !! i = Some nd /\
    attempt_events l c j =
      EvAdd AtomicAccess LrequestCounter t
      :: EvLoad PlainAccess (LAlive i) (alive_at l i)
      :: (if alive_at l i then [EvPrintf (LogRouted t (Host (URL nd)))]
          else []).
Proof.
  intros Hne t i.
  assert (Hlen : (0 < length l)%nat).
  { destruct l; [congruence | simpl; lia]. }
  destruct (lookup_lt_is_Some_2 l i) as [nd Hnd]; [now apply slot_lt|].
  exists nd. split; [exact Hnd|].
  unfold attempt_events, alive_at. fold t i. now rewrite Hnd.
Qed.

(** The increments among the events of attempts [1..m]. *)
Lemma adds_of_attempts l c m :
  l <> [] ->
  filter (fun e => is_add e = true)
         (flat_map (attempt_events l c) (seq 1 m)) =
  map (fun j => EvAdd AtomicAccess LrequestCounter (ticket c j)) (seq 1 m).
Proof.
  intros Hne.
  assert (Hlen : (0 < length l)%nat).
  { destruct l; [congruence | simpl; lia]. }
  generalize 1%nat as a. induction m as [|m IH]; intros a; [reflexivity|].
  simpl. rewrite filter_app, IH. f_equal.
  unfold attempt_events.
  destruct (lookup_lt_is_Some_2 l (slot (length l) (ticket c a)))
    as [nd ->]; [now apply slot_lt|].
  destruct (Alive nd); reflexivity.
Qed.


Lemma stores_of_attempts l c m :
  Forall (fun e => is_store e = false)
         (flat_map (attempt_events l c) (seq 1 m)).
Proof.
  apply Forall_flat_map, Forall_forall. intros j _.
  unfold attempt_events. destruct (l !! _) as [nd|]; [|constructor].
  destruct (Alive nd); repeat constructor.
Qed.

Lemma attempt_events_plain l c j :
  Forall (fun e => flag_access_plain e = true) (attempt_events l c j).
Proof.
  unfold attempt_events. destruct (_ !! _) as [nd|]; [|constructor].
  destruct (Alive nd); repeat constructor.
Qed.

(** ** The selection loop (lines 159-178) *)

(** A call that starts at counter value [c] makes attempts [1..m] with the
    tickets [ticket c 1 .. ticket c m], for some [m] up to the loop bound:
    every attempt before the [m]-th finds a dead backend; the [m]-th either
    finds a live one, which is the result, or is the last one allowed. *)
Lemma selectLoop_run r s :
  nodes s <> [] ->
  let l := nodes s in
  let c := requestCounter s in
  exists m res,
    selectLoop r s =
      Returns res (after s m) (flat_map (attempt_events l c) (seq 1 m)) /\
    (m <= r)%nat /\
    (forall j, (1 <= j < m)%nat ->
       alive_at l (slot (length l) (ticket c j)) = false) /\
    ((1 <= m)%nat /\ res = Some (slot (length l) (ticket c m)) /\
       alive_at l (slot (length l) (ticket c m)) = true
     \/ m = r /\ res = None /\
        forall j, (1 <= j <= r)%nat ->
          alive_at l (slot (length l) (ticket c j)) = false).
Proof.
  revert s. induction r as [|r IH]; intros s Hne l c.
  - exists O, None. repeat split; try lia. right. repeat split; intros; lia.
  - assert (Hlen : (0 < length l)%nat).
    { subst l. destruct (nodes s); [congruence | simpl; lia]. }
    destruct (lookup_lt_is_Some_2 l (slot (length l) (ticket c 1)))
      as [nd Hnd]; [now apply slot_lt|].
    pose proof (attempt_run s nd Hnd) as Hrun. fold l c in Hrun.
    destruct (Alive nd) eqn:Ealive.
    + exists 1%nat, (Some (slot (length l) (ticket c 1))).
      split; [|repeat split; try lia].
      * simpl. rewrite (bind_Returns _ _ _ _ _ _ Hrun). simpl.
        now rewrite !app_nil_r.
      * left. repeat split; [lia|]. unfold alive_at. now rewrite Hnd.
    + destruct (IH (with_counter s (ticket c 1)) Hne)
        as (m & res & Hloop & Hle & Hdead & Hres).
      simpl in Hloop, Hdead, Hres. fold l in Hloop, Hdead, Hres.
      assert (Hfirst : alive_at l (slot (length l) (ticket c 1)) = false).
      { unfold alive_at. now rewrite Hnd. }
      assert (Hshift : forall j, ticket (ticket c 1) j = ticket c (S j)).
      { intros j. now rewrite ticket_shift. }
      exists (S m), res. split; [|split; [lia|split]].
      * simpl selectLoop. rewrite (bind_Returns _ _ _ _ _ _ Hrun).
        rewrite Hloop. f_equal.
        -- change (with_counter s (ticket c 1)) with (after s 1).
           now rewrite after_after.
        -- rewrite flat_map_attempts_shift. reflexivity.
      * intros j Hj. destruct (decide (j = 1%nat)) as [->|Hj1]; [easy|].
        destruct j as [|j]; [lia|]. rewrite <- Hshift. apply Hdead. lia.
      * destruct Hres as [(Hm & -> & Hlive) | (-> & -> & Hall)].
        -- left. rewrite Hshift in Hlive |- *. repeat split; [lia|easy].
        -- right. repeat split. intros j Hj.
           destruct (decide (j = 1%nat)) as [->|Hj1]; [easy|].
           destruct j as [|j]; [lia|]. rewrite <- Hshift. apply Hall. lia.
Qed.

(** ** The handler (lines 149-190) *)

Lemma handler_favicon s :
  handler faviconPath s = Returns (AbortWithStatus 204) s [].
Proof. reflexivity. Qed.

Lemma handler_dispatch path s :
  path <> faviconPath ->
  handler path s =
    bind (selectLoop (length (nodes s)))
         (fun targetNode =>
            match targetNode with
            | None => ret (RespString 502 allDownBody)
            | Some t => proxy <- node_ReverseProxy t ;; ret (ServeHTTP t proxy)
            end) s.
Proof.
  intros Hp. unfold handler.
  destruct (String.eqb_spec path faviconPath) as [E|_]; [contradiction|].
  rewrite bind_len_nodes. now rewrite Nat2Z.id.
Qed.

(** A dispatching call on a non-empty pool makes between one and
    [len(nodes)] attempts, and answers from the outcome of the last. *)
Lemma handler_run path s :
  path <> faviconPath ->
  nodes s <> [] ->
  let l := nodes s in
  let c := requestCounter s in
  exists m resp,
    handler path s =
      Returns resp (with_counter s (ticket c m))
              (flat_map (attempt_events l c) (seq 1 m)) /\
    (1 <= m <= length l)%nat /\
    (forall j, (1 <= j < m)%nat ->
       alive_at l (slot (length l) (ticket c j)) = false) /\
    ((exists nd, l !! slot (length l) (ticket c m) = Some nd /\
        Alive nd = true /\
        resp = ServeHTTP (slot (length l) (ticket c m)) (ReverseProxy nd))
     \/ m = length l /\ resp = RespString 502 allDownBody /\
        forall j, (1 <= j <= length l)%nat ->
          alive_at l (slot (length l) (ticket c j)) = false).
Proof.
  intros Hp Hne l c.
  assert (Hlen : (0 < length l)%nat).
  { subst l. destruct (nodes s); [congruence | simpl; lia]. }
  destruct (selectLoop_run (length l) s Hne)
    as (m & res & Hloop & Hle & Hdead & Hres).
  fold l c in Hloop, Hdead, Hres.
  rewrite (handler_dispatch _ _ Hp). fold l.
  rewrite (bind_Returns _ _ _ _ _ _ Hloop).
  destruct Hres as [(Hm & -> & Hlive) | (-> & -> & Hall)].
  - unfold alive_at in Hlive.
    destruct (l !! slot (length l) (ticket c m)) as [nd|] eqn:Hnd;
      [|discriminate].
    exists m, (ServeHTTP (slot (length l) (ticket c m)) (ReverseProxy nd)).
    split; [|split; [lia|split; [exact Hdead|left; eauto]]].
    unfold bind, node_ReverseProxy, ret. rewrite nodes_after. fold l.
    rewrite Hnd. simpl. rewrite !app_nil_r.
    destruct m; [lia | reflexivity].
  - exists (length l), (RespString 502 allDownBody).
    split; [|split; [lia|split; [exact Hdead|right; auto]]].
    unfold ret. rewrite app_nil_r.
    destruct (length l); [lia | reflexivity].
Qed.

(** The handler returns on every request and every shared memory: it never
    panics, whatever the flags, the counter and the size of the pool. *)
Lemma handler_never_panics path s :
  exists resp s' evs, handler path s = Returns resp s' evs.
Proof.
  destruct (decide (path = faviconPath)) as [->|Hp].
  { rewrite handler_favicon. eauto. }
  destruct (nodes s) as [|nd0 l0] eqn:Hl.
  { rewrite (handler_dispatch _ _ Hp), Hl. simpl. eauto. }
  assert (Hne : nodes s <> []) by (rewrite Hl; congruence).
  destruct (handler_run path s Hp Hne) as (m & resp & Hrun & _). eauto.
Qed.

Lemma handler_frame path s :
  nodes (final (handler path s)) = nodes s /\
  Forall (fun e => is_store e = false) (events (handler path s)).
Proof.
  destruct (decide (path = faviconPath)) as [->|Hp].
  { rewrite handler_favicon. split; [reflexivity | constructor]. }
  destruct (nodes s) as [|nd l] eqn:Hl.
  { rewrite (handler_dispatch _ _ Hp), Hl. simpl. rewrite Hl.
    split; [reflexivity | constructor]. }
  assert (Hne : nodes s <> []) by (rewrite Hl; congruence).
  destruct (handler_run path s Hp Hne) as (m & resp & Hrun & _).
  rewrite Hrun. simpl. split; [exact Hl | apply stores_of_attempts].
Qed.

Lemma handler_events_kind path s :
  Forall (fun e => is_handler_event e = true) (events (handler path s)).
Proof.
  destruct (decide (path = faviconPath)) as [->|Hp].
  { rewrite handler_favicon. constructor. }
  destruct (nodes s) as [|nd0 l0] eqn:Hl.
  { rewrite (handler_dispatch _ _ Hp), Hl. simpl. constructor. }
  assert (Hne : nodes s <> []) by (rewrite Hl; congruence).
  destruct (handler_run path s Hp Hne) as (m & resp & Hrun & _).
  rewrite Hrun. simpl. apply Forall_flat_map, Forall_forall. intros j _.
  unfold attempt_events. destruct (_ !! _) as [nd|]; [|constructor].
  destruct (Alive nd); repeat constructor.
Qed.

(** ** C1: rotation when every backend is alive *)

Lemma handler_all_alive path s :
  path <> faviconPath ->
  (1 <= length (nodes s))%nat ->
  Forall (fun nd => Alive nd = true) (nodes s) ->
  let t := ticket (requestCounter s) 1 in
  let i := slot (length (nodes s)) t in
  exists nd,
    nodes s !! i = Some nd /\
    handler path s =
      Returns (ServeHTTP i (ReverseProxy nd)) (with_counter s t)
              [EvAdd AtomicAccess LrequestCounter t;
               EvLoad PlainAccess (LAlive i) true;
               EvPrintf (LogRouted t (Host (URL nd)))].
Proof.
  intros Hp Hn Hall t i.
  pose proof (nonempty_length _ Hn) as Hne.
  assert (Hi : alive_at (nodes s) i = true).
  { apply all_alive_alive_at; [exact Hall | apply slot_lt; lia]. }
  destruct (handler_run path s Hp Hne)
    as (m & resp & Hrun & Hm & Hdead & Hres).
  assert (m = 1%nat) as ->.
  { destruct (decide (m = 1%nat)) as [|Hm1]; [assumption|].
    specialize (Hdead 1%nat ltac:(lia)). fold t i in Hdead. congruence. }
  fold t i in Hrun, Hres.
  destruct Hres as [(nd & Hnd & Halive & ->) | (_ & _ & Hnone)].
  - exists nd. split; [exact Hnd|]. rewrite Hrun. f_equal.
    simpl. rewrite app_nil_r. unfold attempt_events. fold t i.
    now rewrite Hnd, Halive.
  - specialize (Hnone 1%nat ltac:(lia)). fold t i in Hnone. congruence.
Qed.

Lemma serveAll_all_alive paths : forall s,
  (1 <= length (nodes s))%nat ->
  Forall (fun nd => Alive nd = true) (nodes s) ->
  Forall (fun path => path <> faviconPath) paths ->
  let n := length (nodes s) in
  let c := requestCounter s in
  let k := length paths in
  exists rs evs,
    serveAll paths s = Returns rs (after s k) evs /\
    map targetOf rs = map (fun j => Some (slot n (ticket c j))) (seq 1 k) /\
    filter (fun e => is_add e = true) evs =
      map (fun j => EvAdd AtomicAccess LrequestCounter (ticket c j))
          (seq 1 k).
Proof.
  induction paths as [|path paths IH]; intros s Hn Hall Hpaths n c k.
  - exists [], []. repeat split.
  - inversion Hpaths as [|? ? Hp Hrest]; subst.
    destruct (handler_all_alive path s Hp Hn Hall) as (nd & Hnd & Hrun).
    fold n c in Hnd, Hrun.
    destruct (IH (with_counter s (ticket c 1)) Hn Hall Hrest)
      as (rs & evs & Hserve & Htargets & Hadds).
    simpl in Hserve, Htargets, Hadds. fold n in Htargets.
    exists (ServeHTTP (slot n (ticket c 1)) (ReverseProxy nd) :: rs).
    eexists. split; [|split].
    + simpl serveAll. rewrite (bind_Returns _ _ _ _ _ _ Hrun).
      rewrite (bind_Returns _ _ _ _ _ _ Hserve). unfold ret.
      rewrite app_nil_r. f_equal.
      change (with_counter s (ticket c 1)) with (after s 1).
      now rewrite after_after.
    + subst k. simpl. f_equal. rewrite Htargets.
      rewrite <- (seq_shift (length paths) 1), map_map.
      apply map_ext. intros j. now rewrite ticket_shift.
    + subst k. rewrite filter_app, Hadds. simpl. f_equal.
      rewrite <- (seq_shift (length paths) 1), map_map.
      apply map_ext. intros j. now rewrite ticket_shift.
Qed.

(** C1 (amended). In a pool of N >= 1 backends that are all alive,
    consecutive dispatching calls that start at counter value c all return;
    the j-th call (j = 1, 2, ...) increments the counter once, atomically,
    obtaining the ticket (c + j) mod 2^64, and hands the request to the
    backend at position ticket mod N. While the counter does not wrap
    around 2^64, or when N divides 2^64, each call therefore selects the
    position after the one the previous call selected, modulo N. *)
Theorem round_robin_all_alive paths s :
  (1 <= length (nodes s))%nat ->
  Forall (fun nd => Alive nd = true) (nodes s) ->
  Forall (fun path => path <> faviconPath) paths ->
  let n := length (nodes s) in
  let c := requestCounter s in
  let k := length paths in
  let o := serveAll paths s in
  option_map (map targetOf) (result o) =
    Some (map (fun j => Some (slot n (ticket c j))) (seq 1 k)) /\
  filter (fun e => is_add e = true) (events o) =
    map (fun j => EvAdd AtomicAccess LrequestCounter (ticket c j)) (seq 1 k) /\
  final o = after s k /\
  (forall j,
     (0 <= c /\ c + Z.of_nat (S j) < uint64_modulus) \/
       uint64_modulus mod Z.of_nat n = 0 ->
     slot n (ticket c (S j)) = ((slot n (ticket c j) + 1) mod n)%nat).
Proof.
  intros Hn Hall Hpaths n c k o.
  destruct (serveAll_all_alive paths s Hn Hall Hpaths)
    as (rs & evs & Hserve & Htargets & Hadds).
  subst o. rewrite Hserve. simpl. rewrite Htargets.
  repeat split; try assumption.
  intros j Hwrap. now apply slot_next.
Qed.

Lemma round_robin_all_alive_witness :
  option_map (map targetOf)
    (result (serveAll ["/"; "/api"; "/"; "/"]%string
                      (pool [true; true; true] 0))) =
  Some [Some 1%nat; Some 2%nat; Some 0%nat; Some 1%nat].
Proof.
  refine (proj1 (round_robin_all_alive ["/"; "/api"; "/"; "/"]%string
                   (pool [true; true; true] 0) _ _ _)).
  - simpl. lia.
  - repeat constructor.
  - repeat constructor; discriminate.
Defined.

(** C1 as the specification states it fails where the counter wraps around:
    with three live backends and the counter at 2^64 - 2, two consecutive
    calls draw the tickets 2^64 - 1 and 0, and both select position 0. *)
Lemma round_robin_repeats_at_wraparound :
  option_map (map targetOf)
    (result (serveAll ["/"; "/"]%string
                      (pool [true; true; true] (2 ^ 64 - 2)))) =
    Some [Some 0%nat; Some 0%nat] /\
  filter (fun e => is_add e = true)
    (events (serveAll ["/"; "/"]%string
                      (pool [true; true; true] (2 ^ 64 - 2)))) =
    [EvAdd AtomicAccess LrequestCounter (2 ^ 64 - 1);
     EvAdd AtomicAccess LrequestCounter 0].
Proof. split; vm_compute; reflexivity. Qed.

(** The scenario of the specification: with the first of three backends
    dead, three calls from counter 0 go to the second, the third and the
    second backend; the third call skips the dead backend at its first
    attempt and draws a second ticket. *)
Example scenario_first_backend_dead :
  option_map (map targetOf)
    (result (serveAll ["/"; "/"; "/"]%string (pool [false; true; true] 0))) =
    Some [Some 1%nat; Some 2%nat; Some 1%nat] /\
  filter (fun e => is_add e = true)
    (events (serveAll ["/"; "/"; "/"]%string (pool [false; true; true] 0))) =
    [EvAdd AtomicAccess LrequestCounter 1;
     EvAdd AtomicAccess LrequestCounter 2;
     EvAdd AtomicAccess LrequestCounter 3;
     EvAdd AtomicAccess LrequestCounter 4].
Proof. split; vm_compute; reflexivity. Qed.

(** ** C2: a pool with no live backend *)

(** C2. In a pool of N >= 1 backends that are all dead, a dispatching call
    returns (it neither panics nor waits): it makes exactly N attempts, each
    an increment of the counter followed by a load of a dead candidate's
    flag, selects nothing and answers 502. *)
Theorem dispatch_all_dead_502 path s :
  (1 <= length (nodes s))%nat ->
  Forall (fun nd => Alive nd = false) (nodes s) ->
  path <> faviconPath ->
  let n := length (nodes s) in
  let c := requestCounter s in
  handler path s =
    Returns (RespString 502 allDownBody)
            (with_counter s (ticket c n))
            (flat_map (fun j =>
               [EvAdd AtomicAccess LrequestCounter (ticket c j);
                EvLoad PlainAccess (LAlive (slot n (ticket c j))) false])
               (seq 1 n)) /\
  increments (events (handler path s)) = n.
Proof.
  intros Hn Hdead Hp n c.
  pose proof (nonempty_length _ Hn) as Hne.
  destruct (handler_run path s Hp Hne)
    as (m & resp & Hrun & Hm & _ & [(nd & Hnd & Hlive & _) | (-> & -> & _)]).
  - pose proof (all_dead_alive_at _ (slot (length (nodes s))
        (ticket (requestCounter s) m)) Hdead) as Hd.
    unfold alive_at in Hd. rewrite Hnd in Hd. congruence.
  - fold n c in Hrun. rewrite Hrun. split.
    + f_equal. apply flat_map_ext. intros j.
      destruct (attempt_events_alive_at (nodes s) c j Hne) as (nd & _ & ->).
      now rewrite (all_dead_alive_at _ _ Hdead).
    + unfold increments. simpl. rewrite adds_of_attempts by exact Hne.
      now rewrite length_map, length_seq.
Qed.

Lemma dispatch_all_dead_502_witness :
  handler "/" (pool [false; false; false] 7) =
    Returns (RespString 502 allDownBody)
            (pool [false; false; false] 10)
            [EvAdd AtomicAccess LrequestCounter 8;
             EvLoad PlainAccess (LAlive 2) false;
             EvAdd AtomicAccess LrequestCounter 9;
             EvLoad PlainAccess (LAlive 0) false;
             EvAdd AtomicAccess LrequestCounter 10;
             EvLoad PlainAccess (LAlive 1) false] /\
  increments (events (handler "/" (pool [false; false; false] 7))) = 3%nat.
Proof.
  refine (dispatch_all_dead_502 "/" (pool [false; false; false] 7) _ _ _).
  - simpl. lia.
  - repeat constructor.
  - discriminate.
Defined.

(** ** C5: a pool with exactly one live backend *)

(** Where the handler does reach the one live backend: in a pool of
    N >= 1 backends of which exactly one, at position a, is alive, a
    dispatching call that runs with no other increment of the counter in
    between, and whose N tickets c+1 .. c+N do not wrap around 2^64 (or
    whose pool size divides 2^64), hands the request to that backend after
    m <= N attempts. *)
Theorem dispatch_single_alive path s a nd :
  (1 <= length (nodes s))%nat ->
  path <> faviconPath ->
  nodes s !! a = Some nd ->
  Alive nd = true ->
  (forall i, i <> a -> alive_at (nodes s) i = false) ->
  let n := length (nodes s) in
  let c := requestCounter s in
  (0 <= c /\ c + Z.of_nat n < uint64_modulus) \/
    uint64_modulus mod Z.of_nat n = 0 ->
  exists m,
    (1 <= m <= n)%nat /\
    handler path s =
      Returns (ServeHTTP a (ReverseProxy nd))
              (with_counter s (ticket c m))
              (flat_map (attempt_events (nodes s) c) (seq 1 m)) /\
    increments (events (handler path s)) = m.
Proof.
  intros Hn Hp Ha Hlive Hothers n c Hwrap.
  pose proof (nonempty_length _ Hn) as Hne.
  destruct (handler_run path s Hp Hne)
    as (m & resp & Hrun & Hm & _ & Hres).
  fold n c in Hrun, Hm, Hres.
  assert (Hadds : increments (events (handler path s)) = m).
  { rewrite Hrun. unfold increments. simpl.
    rewrite adds_of_attempts by exact Hne.
    now rewrite length_map, length_seq. }
  destruct Hres as [(nd' & Hnd' & Hlive' & ->) | (_ & _ & Hnone)].
  - exists m. split; [exact Hm|]. split; [|exact Hadds].
    destruct (decide (slot n (ticket c m) = a)) as [E|E].
    + rewrite E in Hnd', Hrun. rewrite Ha in Hnd'. now inversion Hnd'; subst.
    + specialize (Hothers _ E). unfold alive_at in Hothers.
      rewrite Hnd' in Hothers. congruence.
  - exfalso.
    destruct (window_covers n c a) as (j & Hj & Hslot).
    { apply lookup_lt_Some in Ha. exact Ha. }
    specialize (Hnone j Hj).
    rewrite slot_ticket_unwrapped in Hnone; [|exact Hn|].
    + rewrite Hslot in Hnone. unfold alive_at in Hnone.
      rewrite Ha in Hnone. congruence.
    + destruct Hwrap as [[Hc Hw] | Hdiv]; [left; lia | right; exact Hdiv].
Qed.

Lemma dispatch_single_alive_witness :
  exists m,
    (1 <= m <= 3)%nat /\
    handler "/" (pool [false; false; true] 6) =
      Returns (ServeHTTP 2 (ReverseProxy (mkBackend "C" true)))
              (with_counter (pool [false; false; true] 6) (ticket 6 m))
              (flat_map (attempt_events (nodes (pool [false; false; true] 6)) 6)
                        (seq 1 m)) /\
    increments (events (handler "/" (pool [false; false; true] 6))) = m.
Proof.
  refine (dispatch_single_alive "/" (pool [false; false; true] 6) 2
            (mkBackend "C" true) _ _ _ _ _ _).
  - simpl. lia.
  - discriminate.
  - reflexivity.
  - reflexivity.
  - intros [|[|[|i]]] Hi; try reflexivity. now elim Hi.
  - left. simpl. unfold uint64_modulus. lia.
Defined.

Lemma selectLoopAmong_nil r : forall s,
  selectLoopAmong [] r s = selectLoop r s.
Proof.
  induction r as [|r IH]; intros s; [reflexivity|].
  simpl. rewrite bind_ret_l. apply bind_ext.
  intros [t|] s'; [reflexivity | apply IH].
Qed.

(** Run with no other handler, [handlerAmong] is [handler]. *)
Lemma handlerAmong_nil path s : handlerAmong [] path s = handler path s.
Proof.
  unfold handlerAmong, handler. destruct (String.eqb path faviconPath);
    [reflexivity|].
  apply bind_ext. intros n s'. unfold bind. now rewrite selectLoopAmong_nil.
Qed.

(** C5 (the handler fails it). With exactly one backend alive, a
    dispatching call can take the branch for a pool that is entirely down
    and answer 502 with the body [allDownBody], because every retry draws
    a fresh ticket from the shared counter instead of moving on to the next
    position. When another handler draws a ticket in between: with two
    backends of which only the first is alive and the counter at 0, a call
    that draws the tickets 1 and 3 (another request drew 2) inspects
    position 1 twice and answers 502. And when the tickets of one call wrap
    around: with three backends of which only the last is alive and the
    counter at 2^64 - 2, the call draws the tickets 2^64 - 1, 0 and 1, which
    select the positions 0, 0 and 1, and answers 502. In both the live
    backend is never inspected. *)
Theorem dispatch_single_alive_fails :
  alive_at (nodes (pool [true; false] 0)) 0 = true /\
  handlerAmong [0; 1]%nat "/" (pool [true; false] 0) =
    Returns (RespString 502 allDownBody)
            (pool [true; false] 3)
            [EvAdd AtomicAccess LrequestCounter 1;
             EvLoad PlainAccess (LAlive 1) false;
             EvAdd AtomicAccess LrequestCounter 2;
             EvAdd AtomicAccess LrequestCounter 3;
             EvLoad PlainAccess (LAlive 1) false] /\
  alive_at (nodes (pool [false; false; true] (2 ^ 64 - 2))) 2 = true /\
  handler "/" (pool [false; false; true] (2 ^ 64 - 2)) =
    Returns (RespString 502 allDownBody)
            (pool [false; false; true] 1)
            [EvAdd AtomicAccess LrequestCounter (2 ^ 64 - 1);
             EvLoad PlainAccess (LAlive 0) false;
             EvAdd AtomicAccess LrequestCounter 0;
             EvLoad PlainAccess (LAlive 0) false;
             EvAdd AtomicAccess LrequestCounter 1;
             EvLoad PlainAccess (LAlive 1) false].
Proof. repeat split; vm_compute; reflexivity. Qed.

(** ** C6: one fresh ticket per attempt *)




(** ** C10: the empty pool *)

(** C10. On an empty pool a dispatching call returns 502 without touching
    the shared memory and without any event: the loop body is not entered,
    so the counter is not incremented and [current % 0] is not evaluated.
    Entering the body once would panic with a division by zero. *)
Theorem empty_pool_502 path s :
  nodes s = [] ->
  path <> faviconPath ->
  handler path s = Returns (RespString 502 allDownBody) s [] /\
  increments (events (handler path s)) = 0%nat /\
  attempt s =
    Panics DivideByZero
           (with_counter s (ticket (requestCounter s) 1))
           [EvAdd AtomicAccess LrequestCounter (ticket (requestCounter s) 1)].
Proof.
  intros Hnil Hp. rewrite (handler_dispatch _ _ Hp), Hnil. simpl.
  repeat split.
  unfold attempt, bind, atomic_AddUint64, len_nodes, umod, with_counter.
  simpl. now rewrite Hnil.
Qed.

Lemma empty_pool_502_witness :
  handler "/" (pool [] 5) = Returns (RespString 502 allDownBody) (pool [] 5) [] /\
  increments (events (handler "/" (pool [] 5))) = 0%nat /\
  attempt (pool [] 5) =
    Panics DivideByZero (pool [] 6) [EvAdd AtomicAccess LrequestCounter 6].
Proof.
  refine (empty_pool_502 "/" (pool [] 5) _ _).
  - reflexivity.
  - discriminate.
Defined.

(** ** The probe and the sweep (lines 18-34, 119-141) *)

Lemma isAlive_run dial u s :
  isAlive dial u s =
    Returns (reachable (dial (Host u))) s (probe_events dial u).
Proof.
  unfold isAlive, bind, net_DialTimeout, conn_Close, emit, ret, probe_events,
    reachable.
  now destruct (dial (Host u)).
Qed.

Lemma set_Alive_same nd : set_Alive (Alive nd) nd = nd.
Proof. now destruct nd. Qed.

Lemma checkNode_run dial i s nd :
  nodes s !! i = Some nd ->
  checkNode dial i s =
    Returns tt
      {| nodes := <[i := set_Alive (reachable (dial (Host (URL nd)))) nd]>
                    (nodes s);
         requestCounter := requestCounter s |}
      (check_events dial i nd).
Proof.
  intros Hnd. unfold checkNode, check_events.
  unfold bind at 1. unfold node_URL. rewrite Hnd.
  unfold bind at 1. rewrite isAlive_run.
  unfold bind at 1. unfold load_Alive. rewrite Hnd.
  destruct (Bool.eqb_spec (Alive nd) (reachable (dial (Host (URL nd)))))
    as [E|E]; simpl.
  - rewrite <- E, set_Alive_same, list_insert_id by exact Hnd.
    unfold ret. now destruct s.
  - unfold bind, store_Alive. rewrite Hnd.
    destruct (reachable _); reflexivity.
Qed.

Lemma rangeNodes_run net todo : forall done s,
  nodes s = done ++ todo ->
  rangeNodes net (length done) (length todo) s =
    Returns tt
      {| nodes := done ++ imap (fun k nd =>
                     set_Alive (observed net (length done + k) nd) nd) todo;
         requestCounter := requestCounter s |}
      (concat (imap (fun k nd =>
                 check_events (net (length done + k)%nat) (length done + k) nd)
               todo)).
Proof.
  induction todo as [|nd rest IH]; intros done s Hs.
  - simpl. unfold ret. destruct s; simpl in *. now rewrite Hs.
  - simpl rangeNodes.
    assert (Hnd : nodes s !! length done = Some nd).
    { rewrite Hs. apply list_lookup_middle. reflexivity. }
    rewrite (bind_Returns _ _ _ _ _ _ (checkNode_run _ _ _ _ Hnd)).
    specialize (IH (done ++ [set_Alive (observed net (length done) nd) nd])
      {| nodes := <[length done :=
                      set_Alive (reachable (net (length done) (Host (URL nd))))
                                nd]> (nodes s);
         requestCounter := requestCounter s |}).
    rewrite length_app in IH. simpl in IH.
    replace (length done + 1)%nat with (S (length done)) in IH by lia.
    rewrite IH.
    + rewrite !imap_cons, Nat.add_0_r, <- app_assoc. simpl. f_equal.
      * do 3 f_equal. apply imap_ext. intros k x _. simpl.
        now replace (length done + S k)%nat with (S (length done + k)) by lia.
      * do 3 f_equal. apply imap_ext. intros k x _. simpl.
        now replace (length done + S k)%nat with (S (length done + k)) by lia.
    + rewrite Hs, insert_app_r_alt by lia.
      rewrite Nat.sub_diag. simpl. now rewrite <- app_assoc.
Qed.

Lemma sweep_run net s :
  sweep net s =
    Returns tt
      {| nodes := imap (fun i nd => set_Alive (observed net i nd) nd) (nodes s);
         requestCounter := requestCounter s |}
      (concat (imap (fun i nd => check_events (net i) i nd) (nodes s))).
Proof.
  unfold sweep. exact (rangeNodes_run net (nodes s) [] s eq_refl).
Qed.

Lemma probe_events_no_store dial u :
  filter (fun e => is_store e = true) (probe_events dial u) = [].
Proof. unfold probe_events. now destruct (dial (Host u)). Qed.

Lemma probe_events_no_printf dial u :
  filter (fun e => is_printf e = true) (probe_events dial u) = [].
Proof. unfold probe_events. now destruct (dial (Host u)). Qed.

Lemma stores_of_check net i nd :
  filter (fun e => is_store e = true) (check_events (net i) i nd) =
  if decide (observed net i nd <> Alive nd)
  then [EvStore PlainAccess (LAlive i) (observed net i nd)] else [].
Proof.
  unfold check_events. rewrite filter_app, probe_events_no_store.
  fold (observed net i nd).
  destruct (Alive nd), (observed net i nd); reflexivity.
Qed.

Lemma printfs_of_check net i nd :
  filter (fun e => is_printf e = true) (check_events (net i) i nd) =
  if decide (observed net i nd <> Alive nd)
  then [EvPrintf (transition_line (Host (URL nd)) (observed net i nd))]
  else [].
Proof.
  unfold check_events. rewrite filter_app, probe_events_no_printf.
  fold (observed net i nd).
  destruct (Alive nd), (observed net i nd); reflexivity.
Qed.

Lemma elem_of_transitions net l i nd b :
  (i, nd, b) ∈ transitions net l <->
  l !! i = Some nd /\ b = observed net i nd /\ b <> Alive nd.
Proof.
  unfold transitions. rewrite list_elem_of_filter, elem_of_lookup_imap. simpl.
  split.
  - intros (Hb & i' & nd' & Heq & Hl). inversion Heq; subst. auto.
  - intros (Hl & -> & Hb). split; [exact Hb|]. exists i, nd. auto.
Qed.

Lemma check_events_plain dial i nd :
  Forall (fun e => flag_access_plain e = true) (check_events dial i nd).
Proof.
  unfold check_events, probe_events. apply Forall_app. split.
  - destruct (dial _); repeat constructor.
  - destruct (Bool.eqb _ _); repeat constructor.
Qed.

Lemma healthCheck_run rounds : forall net s,
  exists s' evs,
    healthCheck rounds net s = Returns tt s' evs /\
    length (filter (fun e => is_sleep e = true) evs) = rounds.
Proof.
  induction rounds as [|k IH]; intros net s.
  - exists s, []. split; reflexivity.
  - simpl healthCheck.
    destruct (IH (fun r => net (S r))
                 {| nodes := imap (fun i nd =>
                       set_Alive (observed (net 0%nat) i nd) nd) (nodes s);
                    requestCounter := requestCounter s |})
      as (s' & evs & Hrest & Hsleeps).
    eexists s', _. split.
    + rewrite (bind_Returns _ _ _ _ _ _ (sweep_run (net 0%nat) s)).
      unfold bind at 1, emit. rewrite Hrest. reflexivity.
    + rewrite !filter_app, !length_app, Hsleeps.
      rewrite filter_concat_imap.
      assert (Hnone : forall l (g : nat -> Backend -> list event),
                (forall i nd, filter (fun e => is_sleep e = true) (g i nd) = []) ->
                concat (imap (fun i x =>
                  filter (fun e => is_sleep e = true) (g i x)) l) = []).
      { intros l g Hg. revert g Hg. induction l as [|x l IHl]; intros g Hg;
          [reflexivity|].
        rewrite imap_cons. simpl. rewrite Hg. simpl.
        apply (IHl (fun i => g (S i))). intros. apply Hg. }
      rewrite Hnone; [reflexivity|].
      intros i nd. unfold check_events, probe_events.
      destruct (net 0%nat i (Host (URL nd))); simpl;
        destruct (Alive nd); reflexivity.
Qed.

(** ** C3: transitions are stored and logged when the observation differs *)

(** C3. A sweep returns and keeps the size of the pool. Afterwards the
    flag of every backend is what its probe observed, and its URL and proxy
    are as before; a backend whose observation equals its flag is left as
    it was. Its stores to flags and its log lines are one each per backend
    whose observation differs from the stored flag, in pool order: the
    store writes the observation to that backend's flag, the line names
    that backend's host and the new state. A flag is stored to if and only
    if the observation differs from the stored value; a backend whose
    observation equals its flag gets no store and no line. *)
Theorem health_sweep_transitions net s :
  let l := nodes s in
  let o := sweep net s in
  result o = Some tt /\
  length (nodes (final o)) = length l /\
  (forall i nd, l !! i = Some nd ->
     exists nd', nodes (final o) !! i = Some nd' /\
       Alive nd' = observed net i nd /\
       URL nd' = URL nd /\ ReverseProxy nd' = ReverseProxy nd) /\
  (forall i nd, l !! i = Some nd -> observed net i nd = Alive nd ->
     nodes (final o) !! i = Some nd) /\
  nodes (final o) = imap (fun i nd => set_Alive (observed net i nd) nd) l /\
  filter (fun e => is_store e = true) (events o) =
    map (fun x => EvStore PlainAccess (LAlive x.1.1) x.2) (transitions net l) /\
  filter (fun e => is_printf e = true) (events o) =
    map (fun x => EvPrintf (transition_line (Host (URL x.1.2)) x.2))
        (transitions net l) /\
  (forall i nd b, (i, nd, b) ∈ transitions net l <->
     l !! i = Some nd /\ b = observed net i nd /\ b <> Alive nd) /\
  (forall i nd, l !! i = Some nd ->
     ((exists m v, EvStore m (LAlive i) v ∈ events o) <->
      observed net i nd <> Alive nd)).
Proof.
  intros l o. subst o. rewrite sweep_run. fold l. simpl.
  assert (Hstores :
    filter (fun e => is_store e = true)
      (concat (imap (fun i nd => check_events (net i) i nd) l)) =
    map (fun x => EvStore PlainAccess (LAlive x.1.1) x.2) (transitions net l)).
  { unfold transitions. rewrite filter_concat_imap, map_filter_imap.
    f_equal. apply imap_ext. intros i nd _. simpl. apply stores_of_check. }
  split; [reflexivity|]. split; [apply length_imap|].
  split.
  { intros i nd Hnd. exists (set_Alive (observed net i nd) nd).
    rewrite list_lookup_imap, Hnd. repeat split. }
  split.
  { intros i nd Hnd Hsame. rewrite list_lookup_imap, Hnd. simpl.
    now rewrite Hsame, set_Alive_same. }
  split; [reflexivity|]. split; [exact Hstores|].
  split; [|split].
  - unfold transitions. rewrite filter_concat_imap, map_filter_imap.
    f_equal. apply imap_ext. intros i nd _. simpl. apply printfs_of_check.
  - intros i nd b. apply elem_of_transitions.
  - intros i nd Hnd. split.
    + intros (m & v & Hin).
      assert (Hin' : EvStore m (LAlive i) v ∈
                filter (fun e => is_store e = true)
                  (concat (imap (fun i nd => check_events (net i) i nd) l))).
      { apply list_elem_of_filter. split; [reflexivity | exact Hin]. }
      rewrite Hstores in Hin'. apply list_elem_of_fmap in Hin'.
      destruct Hin' as ([[i' nd'] b] & Heq & Hx). simpl in Heq.
      inversion Heq; subst.
      apply elem_of_transitions in Hx. destruct Hx as (Hl & -> & Hb).
      rewrite Hnd in Hl. inversion Hl; subst. exact Hb.
    + intros Hb. exists PlainAccess, (observed net i nd).
      assert (Hin : EvStore PlainAccess (LAlive i) (observed net i nd) ∈
                filter (fun e => is_store e = true)
                  (concat (imap (fun i nd => check_events (net i) i nd) l))).
      { rewrite Hstores. apply list_elem_of_fmap.
        exists (i, nd, observed net i nd). split; [reflexivity|].
        apply elem_of_transitions. auto. }
      apply list_elem_of_filter in Hin. apply Hin.
Qed.

(** ** C7: the probe never fails *)

(** C7. The probe always returns a boolean, leaving the shared memory as
    it was: [true] when the dial answers with a connection (which it then
    closes), [false] when the dial answers with any error, whichever it is.
    It never panics, and nothing a dial answers stops the health check:
    for every number of rounds and every network, the loop completes that
    many sweeps and sleeps. *)
Theorem probe_total dial u s :
  isAlive dial u s =
    Returns (reachable (dial (Host u))) s (probe_events dial u) /\
  (forall conn, dial (Host u) = DialOk conn ->
     isAlive dial u s =
       Returns true s [EvDial "tcp" (Host u) 2 (DialOk conn); EvClose conn]) /\
  (forall e, dial (Host u) = DialErr e ->
     isAlive dial u s =
       Returns false s [EvDial "tcp" (Host u) 2 (DialErr e)]) /\
  (forall rounds net,
     result (healthCheck rounds net s) = Some tt /\
     length (filter (fun e => is_sleep e = true)
                    (events (healthCheck rounds net s))) = rounds).
Proof.
  split; [apply isAlive_run|]. split; [|split].
  - intros conn H. rewrite isAlive_run. unfold probe_events. now rewrite H.
  - intros e H. rewrite isAlive_run. unfold probe_events. now rewrite H.
  - intros rounds net.
    destruct (healthCheck_run rounds net s) as (s' & evs & -> & Hsleeps).
    split; [reflexivity | exact Hsleeps].
Qed.

(** ** C9: only the health check writes flags *)

(** C9. Whatever the request and the shared memory, the handler leaves
    every backend as it was (flag, URL and proxy handle), and performs no
    store at all: its only events are atomic increments of the counter,
    loads of flags and the routing line. The stores to flags are those of
    the health check, which leaves URLs and proxy handles as they were. *)
Theorem flags_written_only_by_health_check path s :
  nodes (final (handler path s)) = nodes s /\
  Forall (fun e => is_store e = false) (events (handler path s)) /\
  Forall (fun e => is_handler_event e = true) (events (handler path s)) /\
  (forall net,
     map URL (nodes (final (sweep net s))) = map URL (nodes s) /\
     map ReverseProxy (nodes (final (sweep net s))) =
       map ReverseProxy (nodes s)).
Proof.
  destruct (handler_frame path s) as [Hnodes Hstores].
  split; [exact Hnodes|]. split; [exact Hstores|].
  split; [apply handler_events_kind|].
  intros net. rewrite sweep_run. simpl.
  split; apply map_imap_preserved; reflexivity.
Qed.

(** ** C4: start-up (lines 70-116) *)

Section StartupProperties.
Variable os_ReadFile : string -> list Byte.byte + string.
Variable json_Unmarshal : list Byte.byte -> Config + string.
Variable url_Parse : string -> url_URL + string.

Lemma fold_addBackend ips : forall acc,
  fold_left (addBackend url_Parse) ips acc =
    (acc.1 ++ accepted url_Parse ips, acc.2 ++ rejections url_Parse ips).
Proof.
  induction ips as [|ip ips IH]; intros [l evs]; simpl.
  - now rewrite !app_nil_r.
  - rewrite IH. unfold addBackend. simpl.
    destruct (url_Parse ip) as [u|err]; simpl;
      now rewrite <- ?app_assoc, ?app_nil_r.
Qed.

Lemma buildNodes_spec ips :
  buildNodes url_Parse ips =
    (accepted url_Parse ips, rejections url_Parse ips).
Proof. unfold buildNodes. now rewrite fold_addBackend. Qed.

Lemma accepted_alive ips :
  Forall (fun nd => Alive nd = true) (accepted url_Parse ips).
Proof.
  apply Forall_flat_map, Forall_forall. intros ip _.
  destruct (url_Parse ip); repeat constructor.
Qed.

(** A configuration that cannot be loaded aborts the launch. *)
Lemma main_aborts_on_config_error err :
  LoadConfig os_ReadFile json_Unmarshal "config.json" = inr err ->
  main os_ReadFile json_Unmarshal url_Parse = Crashed (ConfigError err).
Proof. intros H. unfold main. now rewrite H. Qed.

(** C4 (amended). A configuration that cannot be loaded aborts the launch.
    Whenever the configuration loads, the process starts serving: the pool
    holds one backend, alive, per entry that parses, in order, and one line
    is printed per entry that does not. Nothing checks that the pool is
    non-empty: when no entry parses, the process serves with the empty pool
    and answers every dispatching request with 502. *)
Theorem launch_with_any_pool :
  (forall err,
     LoadConfig os_ReadFile json_Unmarshal "config.json" = inr err ->
     main os_ReadFile json_Unmarshal url_Parse = Crashed (ConfigError err)) /\
  (forall config,
     LoadConfig os_ReadFile json_Unmarshal "config.json" = inl config ->
     let l := accepted url_Parse (Backends config) in
     let s0 := {| nodes := l; requestCounter := 0 |} in
     main os_ReadFile json_Unmarshal url_Parse =
       Serving (Port config) s0 (rejections url_Parse (Backends config)) /\
     Forall (fun nd => Alive nd = true) l /\
     (l = [] ->
      forall path, path <> faviconPath ->
        handler path s0 = Returns (RespString 502 allDownBody) s0 [])).
Proof.
  split; [exact main_aborts_on_config_error|].
  intros config Hload l s0. split; [|split].
  - unfold main. rewrite Hload, buildNodes_spec. reflexivity.
  - apply accepted_alive.
  - intros Hnil path Hp. rewrite (handler_dispatch _ _ Hp).
    subst s0. rewrite Hnil. reflexivity.
Qed.
End StartupProperties.

Lemma launch_with_any_pool_witness :
  main fixture_ReadFile
       (fixture_Unmarshal {| Port := ":8080";
                             Backends := ["http://a:1"; "://bad"] |})
       fixture_Parse =
  Serving ":8080" {| nodes := [mkBackend "a:1" true]; requestCounter := 0 |}
          [EvPrintf (LogParseFailed "://bad")].
Proof.
  refine (proj1 (proj2 (launch_with_any_pool fixture_ReadFile
                   (fixture_Unmarshal {| Port := ":8080";
                        Backends := ["http://a:1"; "://bad"] |})
                   fixture_Parse)
                   {| Port := ":8080"; Backends := ["http://a:1"; "://bad"] |}
                   _)).
  reflexivity.
Defined.

(** C4 as the specification states it fails: a configuration whose only
    entry does not parse, and one with no entry, both launch a serving
    process with an empty pool. *)
Lemma launch_with_empty_pool :
  main fixture_ReadFile
       (fixture_Unmarshal {| Port := ":8080"; Backends := ["://bad"] |})
       fixture_Parse =
    Serving ":8080" {| nodes := []; requestCounter := 0 |}
            [EvPrintf (LogParseFailed "://bad")] /\
  main fixture_ReadFile
       (fixture_Unmarshal {| Port := ":8080"; Backends := [] |})
       fixture_Parse =
    Serving ":8080" {| nodes := []; requestCounter := 0 |} [].
Proof. split; reflexivity. Qed.

(** ** C8: how the flag is accessed *)

(** C8 (what the code does). Every access of a flag, by the handler and by
    the health check alike, is an ordinary load or store; only the counter
    is accessed through [sync/atomic]. With one live backend whose probe is
    refused, the sweep stores the flag that a handler running at the same
    time loads, and the two accesses form a data race; two increments of
    the counter do not. *)
Theorem alive_flag_data_race path net s :
  Forall (fun e => flag_access_plain e = true) (events (handler path s)) /\
  Forall (fun e => flag_access_plain e = true) (events (sweep net s)) /\
  events (sweep refusing (pool [true] 0)) =
    [EvDial "tcp" "A" 2 (DialErr ConnectionRefused);
     EvLoad PlainAccess (LAlive 0) true;
     EvStore PlainAccess (LAlive 0) false;
     EvPrintf (LogDown "A")] /\
  events (handler "/" (pool [true] 0)) =
    [EvAdd AtomicAccess LrequestCounter 1;
     EvLoad PlainAccess (LAlive 0) true;
     EvPrintf (LogRouted 1 "A")] /\
  data_race (EvStore PlainAccess (LAlive 0) false)
            (EvLoad PlainAccess (LAlive 0) true) = true /\
  data_race (EvAdd AtomicAccess LrequestCounter 1)
            (EvAdd AtomicAccess LrequestCounter 2) = false.
Proof.
  split; [|split; [|repeat split]].
  - destruct (decide (path = faviconPath)) as [->|Hp].
    { rewrite handler_favicon. constructor. }
    destruct (nodes s) as [|nd0 l0] eqn:Hl.
    { rewrite (handler_dispatch _ _ Hp), Hl. simpl. constructor. }
    assert (Hne : nodes s <> []) by (rewrite Hl; congruence).
    destruct (handler_run path s Hp Hne) as (m & resp & Hrun & _).
    rewrite Hrun. simpl. apply Forall_flat_map, Forall_forall. intros j _.
    apply attempt_events_plain.
  - rewrite sweep_run. simpl. apply Forall_concat_imap.
    intros i nd. apply check_events_plain.
Qed.

(** * Further properties *)

(** ** Every call of the handler *)

(** The three ways a call ends: the favicon answer, a hand-off to the live
    candidate of its last attempt, or 502 after one attempt per backend. In
    each the call made [m] attempts, all but the last on dead candidates. *)
Lemma handler_outcome path s :
  let l := nodes s in
  let c := requestCounter s in
  exists m resp,
    handler path s =
      Returns resp (after s m) (flat_map (attempt_events l c) (seq 1 m)) /\
    (m <= length l)%nat /\
    (forall j, (1 <= j < m)%nat ->
       alive_at l (slot (length l) (ticket c j)) = false) /\
    (path = faviconPath /\ m = 0%nat /\ resp = AbortWithStatus 204
     \/ path <> faviconPath /\ (1 <= m)%nat /\
        (exists nd, l !! slot (length l) (ticket c m) = Some nd /\
           Alive nd = true /\
           resp = ServeHTTP (slot (length l) (ticket c m)) (ReverseProxy nd))
     \/ path <> faviconPath /\ m = length l /\
        resp = RespString 502 allDownBody /\
        forall j, (1 <= j <= length l)%nat ->
          alive_at l (slot (length l) (ticket c j)) = false).
Proof.
  intros l c.
  destruct (decide (path = faviconPath)) as [->|Hp].
  { exists 0%nat, (AbortWithStatus 204). rewrite handler_favicon.
    split; [reflexivity|]. split; [lia|]. split; [intros; lia|].
    left. auto. }
  destruct (nodes s) as [|nd0 l0] eqn:Hl.
  { exists 0%nat, (RespString 502 allDownBody).
    rewrite (handler_dispatch _ _ Hp), Hl. subst l. simpl.
    split; [reflexivity|]. split; [lia|]. split; [intros; lia|].
    right. right. repeat split; try assumption. }
  assert (Hne : nodes s <> []) by (rewrite Hl; congruence).
  destruct (handler_run path s Hp Hne)
    as (m & resp & Hrun & Hm & Hdead & Hres).
  rewrite Hl in Hrun, Hm, Hdead, Hres. fold c in Hrun, Hdead, Hres.
  exists m, resp. subst l.
  split; [|split; [lia|split; [exact Hdead|]]].
  - rewrite Hrun. destruct m; [lia | reflexivity].
  - destruct Hres as [Hhit | (Hm' & Hresp & Hall)].
    + right. left. split; [exact Hp|]. split; [lia | exact Hhit].
    + right. right. auto.
Qed.

Lemma adds_of_attempts_any l c m :
  (m <= length l)%nat ->
  filter (fun e => is_add e = true)
         (flat_map (attempt_events l c) (seq 1 m)) =
  map (fun j => EvAdd AtomicAccess LrequestCounter (ticket c j)) (seq 1 m).
Proof.
  intros Hm. destruct l as [|nd l].
  - simpl in Hm. now replace m with 0%nat by lia.
  - now apply adds_of_attempts.
Qed.

(** X2. A call never hands a request to a backend whose flag it read as
    dead: when the answer is a hand-off to position t, that position holds a
    backend whose flag is set, the proxy handed over is that backend's, the
    call drew m tickets (1 <= m <= N), t is the position of the last one,
    every earlier ticket fell on a dead backend, and the routing line names
    the last ticket and the backend's host. *)
Theorem dispatch_selects_first_live path s t proxy :
  result (handler path s) = Some (ServeHTTP t proxy) ->
  let l := nodes s in
  let n := length l in
  let c := requestCounter s in
  exists m nd,
    (1 <= m <= n)%nat /\
    t = slot n (ticket c m) /\
    l !! t = Some nd /\ Alive nd = true /\ proxy = ReverseProxy nd /\
    (forall j, (1 <= j < m)%nat -> alive_at l (slot n (ticket c j)) = false) /\
    increments (events (handler path s)) = m /\
    filter (fun e => is_printf e = true) (events (handler path s)) =
      [EvPrintf (LogRouted (ticket c m) (Host (URL nd)))].
Proof.
  intros Hres l n c.
  destruct (handler_outcome path s)
    as (m & resp & Hrun & Hm & Hdead & Hcase).
  fold l c in Hrun, Hm, Hdead, Hcase. fold n in Hm, Hdead, Hcase.
  rewrite Hrun in Hres |- *. simpl in Hres |- *.
  destruct Hcase as [(_ & _ & ->) | [(Hp & Hm1 & nd & Hnd & Halive & ->)
                                   | (_ & _ & -> & _)]];
    try discriminate.
  inversion Hres; subst t proxy. exists m, nd.
  split; [lia|]. do 5 (split; [assumption || reflexivity|]).
  split.
  - unfold increments. rewrite adds_of_attempts_any by exact Hm.
    now rewrite length_map, length_seq.
  - destruct m as [|m]; [lia|].
    rewrite seq_S, flat_map_app, filter_app. simpl.
    rewrite app_nil_r.
    assert (Hnone : filter (fun e => is_printf e = true)
              (flat_map (attempt_events l c) (seq 1 m)) = []).
    { rewrite flat_map_concat_map. clear -Hdead.
      assert (H : forall j, In j (seq 1 m) ->
                filter (fun e => is_printf e = true)
                       (attempt_events l c j) = []).
      { intros j Hj. apply in_seq in Hj.
        specialize (Hdead j ltac:(lia)). fold n.
        unfold attempt_events, alive_at in *. fold n in Hdead |- *.
        destruct (l !! _) as [nd'|]; [|reflexivity].
        rewrite Hdead. reflexivity. }
      induction (seq 1 m) as [|j js IH]; [reflexivity|].
      simpl. rewrite filter_app, H by (left; reflexivity).
      apply IH. intros j' Hj'. apply H. now right. }
    rewrite Hnone. simpl.
    unfold attempt_events. fold n. rewrite Hnd, Halive. reflexivity.
Qed.

Lemma dispatch_selects_first_live_witness :
  exists m nd,
    (1 <= m <= 3)%nat /\
    1%nat = slot 3 (ticket 2 m) /\
    nodes (pool [false; true; true] 2) !! 1%nat = Some nd /\
    Alive nd = true /\ ReverseProxy (mkBackend "B" true) = ReverseProxy nd /\
    (forall j, (1 <= j < m)%nat ->
       alive_at (nodes (pool [false; true; true] 2))
                (slot 3 (ticket 2 j)) = false) /\
    increments (events (handler "/" (pool [false; true; true] 2))) = m /\
    filter (fun e => is_printf e = true)
           (events (handler "/" (pool [false; true; true] 2))) =
      [EvPrintf (LogRouted (ticket 2 m) (Host (URL nd)))].
Proof.
  refine (dispatch_selects_first_live "/" (pool [false; true; true] 2)
            1%nat (ReverseProxy (mkBackend "B" true)) _).
  reflexivity.
Defined.



(** ** Any sequence of requests and sweeps *)

Lemma counter_after_after s m :
  requestCounter (after s m) = counter_after (requestCounter s) m.
Proof. now destruct m. Qed.

Lemma ticket_counter_after c m j :
  ticket (counter_after c m) j = ticket c (m + j).
Proof. destruct m; [reflexivity | apply ticket_shift]. Qed.

Lemma counter_after_add c m k :
  counter_after (counter_after c m) k = counter_after c (m + k).
Proof.
  destruct k as [|k]; simpl.
  - now rewrite Nat.add_0_r.
  - rewrite ticket_counter_after. destruct m; reflexivity.
Qed.

Lemma check_events_no_add dial i nd :
  filter (fun e => is_add e = true) (check_events dial i nd) = [].
Proof.
  unfold check_events, probe_events.
  destruct (dial _); simpl; destruct (Bool.eqb _ _); reflexivity.
Qed.

Lemma sweep_no_add net l :
  filter (fun e => is_add e = true)
         (concat (imap (fun i nd => check_events (net i) i nd) l)) = [].
Proof.
  rewrite filter_concat_imap.
  assert (H : forall (g : nat -> Backend -> list event),
            (forall i nd, g i nd = []) -> concat (imap g l) = []).
  { induction l as [|nd l IH]; intros g Hg; [reflexivity|].
    rewrite imap_cons. simpl. rewrite Hg. apply IH. intros; apply Hg. }
  apply H. intros i nd. apply check_events_no_add.
Qed.

Lemma tickets_append c m k :
  map (fun j => EvAdd AtomicAccess LrequestCounter (ticket c j)) (seq 1 m) ++
  map (fun j => EvAdd AtomicAccess LrequestCounter
                      (ticket (counter_after c m) j)) (seq 1 k) =
  map (fun j => EvAdd AtomicAccess LrequestCounter (ticket c j))
      (seq 1 (m + k)).
Proof.
  rewrite seq_app, map_app. f_equal.
  replace (1 + m)%nat with (m + 1)%nat by lia.
  rewrite <- (fmap_add_seq m 1 k).
  change (fmap (Nat.add m) (seq 1 k)) with (map (Nat.add m) (seq 1 k)).
  rewrite map_map. apply map_ext. intros j.
  now rewrite ticket_counter_after.
Qed.

(** Any sequence of requests and sweeps runs to its end: the pool keeps
    its URLs and proxies, each request gets a response, and the increments
    of the counter are the consecutive tickets after its first value. *)
Lemma live_run acts : forall s,
  let c := requestCounter s in
  let n := length (nodes s) in
  let d := length (filter (fun a => is_dispatch_request a = true) acts) in
  exists rs s' evs M,
    live acts s = Returns rs s' evs /\
    map URL (nodes s') = map URL (nodes s) /\
    map ReverseProxy (nodes s') = map ReverseProxy (nodes s) /\
    requestCounter s' = counter_after c M /\
    filter (fun e => is_add e = true) evs =
      map (fun j => EvAdd AtomicAccess LrequestCounter (ticket c j))
          (seq 1 M) /\
    length rs = length (filter (fun a => is_request a = true) acts) /\
    (M <= d * n)%nat /\ ((1 <= n)%nat -> (d <= M)%nat).
Proof.
  induction acts as [|a acts IH]; intros s c n d.
  - exists [], s, [], 0%nat. subst d. simpl. repeat split; lia.
  - destruct a as [path|net].
    + destruct (handler_outcome path s)
        as (m & resp & Hrun & Hm & _ & Hcase).
      fold c in Hrun. fold n in Hm.
      destruct (IH (after s m))
        as (rs & s' & evs & M & Hlive & Hurl & Hproxy & Hctr & Hadds & Hlen
            & Hub & Hlb).
      rewrite nodes_after in Hurl, Hproxy, Hub, Hlb.
      rewrite counter_after_after in Hctr, Hadds. fold c in Hctr, Hadds.
      fold n in Hub, Hlb.
      exists (resp :: rs), s',
        (flat_map (attempt_events (nodes s) c) (seq 1 m) ++ evs), (m + M)%nat.
      split; [|split; [exact Hurl|split; [exact Hproxy|split; [|split;
        [|split; [|split]]]]]].
      * simpl live. rewrite (bind_Returns _ _ _ _ _ _ Hrun).
        rewrite (bind_Returns _ _ _ _ _ _ Hlive). unfold ret.
        rewrite app_nil_r. reflexivity.
      * rewrite Hctr. apply counter_after_add.
      * rewrite filter_app, Hadds, adds_of_attempts_any by exact Hm.
        apply tickets_append.
      * rewrite filter_cons. simpl. now rewrite Hlen.
      * subst d. rewrite filter_cons. simpl. unfold is_dispatch.
        destruct Hcase as [(-> & -> & _) | [(Hp & _) | (Hp & _)]].
        -- rewrite String.eqb_refl. simpl. lia.
        -- destruct (String.eqb_spec path faviconPath); [contradiction|].
           simpl. lia.
        -- destruct (String.eqb_spec path faviconPath); [contradiction|].
           simpl. lia.
      * intros Hn. specialize (Hlb Hn). subst d. rewrite filter_cons. simpl.
        unfold is_dispatch.
        destruct Hcase as [(-> & -> & _) | [(Hp & Hm1 & _) | (Hp & -> & _)]].
        -- rewrite String.eqb_refl. simpl. lia.
        -- destruct (String.eqb_spec path faviconPath); [contradiction|].
           simpl. lia.
        -- destruct (String.eqb_spec path faviconPath); [contradiction|].
           simpl. fold n. lia.
    + pose proof (sweep_run net s) as Hsweep.
      destruct (IH {| nodes := imap (fun i nd =>
                        set_Alive (observed net i nd) nd) (nodes s);
                      requestCounter := requestCounter s |})
        as (rs & s' & evs & M & Hlive & Hurl & Hproxy & Hctr & Hadds & Hlen
            & Hub & Hlb).
      simpl in Hurl, Hproxy, Hctr, Hadds, Hub, Hlb.
      rewrite length_imap in Hub, Hlb. fold c in Hctr, Hadds.
      fold n in Hub, Hlb.
      rewrite map_imap_preserved in Hurl by reflexivity.
      rewrite map_imap_preserved in Hproxy by reflexivity.
      exists rs, s',
        (concat (imap (fun i nd => check_events (net i) i nd) (nodes s))
         ++ evs), M.
      split; [|split; [exact Hurl|split; [exact Hproxy|split; [exact Hctr|
        split; [|split; [|split]]]]]].
      * simpl live. rewrite (bind_Returns _ _ _ _ _ _ Hsweep).
        rewrite Hlive. reflexivity.
      * now rewrite filter_app, sweep_no_add.
      * rewrite filter_cons. simpl. exact Hlen.
      * subst d. rewrite filter_cons. simpl. exact Hub.
      * subst d. rewrite filter_cons. simpl. exact Hlb.
Qed.

(** Fewer than [2^64] consecutive tickets are pairwise distinct. *)
Lemma tickets_distinct c M :
  Z.of_nat M <= uint64_modulus -> NoDup (map (ticket c) (seq 1 M)).
Proof.
  intros HM. apply (NoDup_fmap_2_strong (ticket c)); [|apply NoDup_seq].
  intros i j Hi Hj Heq.
  apply elem_of_seq in Hi. apply elem_of_seq in Hj.
  unfold ticket, wrap64 in Heq.
  assert (Hdiv : (uint64_modulus | (c + Z.of_nat i) - (c + Z.of_nat j))).
  { apply Z.mod_divide; [pose proof uint64_modulus_pos; lia|].
    rewrite Zminus_mod, Heq, Z.sub_diag. reflexivity. }
  destruct Hdiv as [q Hq].
  pose proof uint64_modulus_pos.
  assert (q = 0) by nia. subst q. lia.
Qed.

(** X4. Whatever requests arrive and whatever sweeps the health check
    makes, in whatever order, the process never panics: every request gets
    a response, and the pool keeps its size, its URLs and its proxy handles
    (only flags and the counter change). *)
Theorem process_keeps_pool acts s :
  let o := live acts s in
  (exists rs, result o = Some rs /\
     length rs = length (filter (fun a => is_request a = true) acts)) /\
  length (nodes (final o)) = length (nodes s) /\
  map URL (nodes (final o)) = map URL (nodes s) /\
  map ReverseProxy (nodes (final o)) = map ReverseProxy (nodes s).
Proof.
  intros o. subst o.
  destruct (live_run acts s)
    as (rs & s' & evs & M & -> & Hurl & Hproxy & _ & _ & Hlen & _).
  simpl. split; [eauto|]. split; [|split; assumption].
  rewrite <- (length_map URL (nodes s')), Hurl. apply length_map.
Qed.

(** X5. Over any sequence of requests and sweeps that starts at counter
    value c, the increments of the counter return the consecutive tickets
    (c+1) mod 2^64, (c+2) mod 2^64, ..., M of them, with no gap; the counter
    ends at the last one. With d dispatching requests and N backends,
    M <= d * N, and d <= M when N >= 1. As long as M <= 2^64 no ticket is
    issued twice. *)
Theorem tickets_issued_consecutively acts s :
  let c := requestCounter s in
  let n := length (nodes s) in
  let d := length (filter (fun a => is_dispatch_request a = true) acts) in
  let o := live acts s in
  exists M,
    filter (fun e => is_add e = true) (events o) =
      map (fun j => EvAdd AtomicAccess LrequestCounter (ticket c j))
          (seq 1 M) /\
    requestCounter (final o) = counter_after c M /\
    (M <= d * n)%nat /\ ((1 <= n)%nat -> (d <= M)%nat) /\
    (Z.of_nat M <= uint64_modulus -> NoDup (map (ticket c) (seq 1 M))).
Proof.
  intros c n d o. subst o.
  destruct (live_run acts s)
    as (rs & s' & evs & M & -> & _ & _ & Hctr & Hadds & _ & Hub & Hlb).
  exists M. simpl. repeat split; try assumption.
  apply tickets_distinct.
Qed.

(** ** Favicon requests (lines 151-154) *)

Lemma live_without_favicon acts : forall s,
  exists rs s' evs,
    live acts s = Returns rs s' evs /\
    live (filter (fun a => is_favicon_request a = false) acts) s =
      Returns (filter (fun r => is_favicon_response r = false) rs) s' evs.
Proof.
  induction acts as [|a acts IH]; intros s.
  - exists [], s, []. split; reflexivity.
  - destruct a as [path|net].
    + destruct (handler_outcome path s)
        as (m & resp & Hrun & _ & _ & Hcase).
      destruct (IH (after s m)) as (rs & s' & evs & Hlive & Hlive').
      exists (resp :: rs), s',
        (flat_map (attempt_events (nodes s) (requestCounter s)) (seq 1 m)
         ++ evs).
      split.
      * simpl live. rewrite (bind_Returns _ _ _ _ _ _ Hrun).
        rewrite (bind_Returns _ _ _ _ _ _ Hlive). unfold ret.
        now rewrite app_nil_r.
      * rewrite !filter_cons. simpl.
        destruct Hcase as [(-> & -> & ->) | Hdispatch].
        -- rewrite String.eqb_refl. simpl. exact Hlive'.
        -- assert (Hp : path <> faviconPath) by (destruct Hdispatch; tauto).
           assert (Hresp : is_favicon_response resp = false).
           { destruct Hdispatch as [(_ & _ & nd & _ & _ & ->)
                                   | (_ & _ & -> & _)]; reflexivity. }
           destruct (String.eqb_spec path faviconPath); [contradiction|].
           rewrite Hresp. simpl.
           rewrite (bind_Returns _ _ _ _ _ _ Hrun).
           rewrite (bind_Returns _ _ _ _ _ _ Hlive'). unfold ret.
           now rewrite app_nil_r.
    + pose proof (sweep_run net s) as Hsweep.
      destruct (IH {| nodes := imap (fun i nd =>
                        set_Alive (observed net i nd) nd) (nodes s);
                      requestCounter := requestCounter s |})
        as (rs & s' & evs & Hlive & Hlive').
      exists rs, s',
        (concat (imap (fun i nd => check_events (net i) i nd) (nodes s))
         ++ evs).
      split.
      * simpl live. rewrite (bind_Returns _ _ _ _ _ _ Hsweep).
        now rewrite Hlive.
      * rewrite filter_cons. simpl.
        rewrite (bind_Returns _ _ _ _ _ _ Hsweep). now rewrite Hlive'.
Qed.

(** X6. Favicon requests leave no trace: taking them out of any sequence
    of requests and sweeps changes neither the shared memory at the end,
    nor the events, nor the responses to the other requests; each of them
    is answered 204 and every other request is answered otherwise. *)
Theorem favicon_requests_invisible acts s :
  let acts' := filter (fun a => is_favicon_request a = false) acts in
  final (live acts s) = final (live acts' s) /\
  events (live acts s) = events (live acts' s) /\
  option_map (filter (fun r => is_favicon_response r = false))
             (result (live acts s)) = result (live acts' s).
Proof.
  intros acts'. subst acts'.
  destruct (live_without_favicon acts s) as (rs & s' & evs & -> & ->).
  repeat split.
Qed.

(** ** More on the health check (lines 18-34, 119-141) *)

Lemma imap_imap_same {A B C} (f : nat -> B -> C) (g : nat -> A -> B)
    (l : list A) :
  imap f (imap g l) = imap (fun i x => f i (g i x)) l.
Proof.
  revert f g. induction l as [|x l IH]; intros f g; [reflexivity|].
  rewrite !imap_cons. f_equal. apply IH.
Qed.

Lemma concat_imap_nil {A B} (g : nat -> A -> list B) (l : list A) :
  (forall i x, l !! i = Some x -> g i x = []) -> concat (imap g l) = [].
Proof.
  revert g. induction l as [|x l IH]; intros g Hg; [reflexivity|].
  rewrite imap_cons. simpl. rewrite (Hg 0%nat x eq_refl). simpl.
  apply IH. intros i y Hy. apply (Hg (S i)). exact Hy.
Qed.

Lemma concat_imap_singleton {A B} (k : nat -> A -> B) (l : list A) :
  concat (imap (fun i x => [k i x]) l) = imap k l.
Proof.
  revert k. induction l as [|x l IH]; intros k; [reflexivity|].
  rewrite !imap_cons. simpl. f_equal. apply IH.
Qed.

Lemma flat_map_concat_imap {A B} (h : event -> list B)
    (g : nat -> A -> list event) (l : list A) :
  flat_map h (concat (imap g l)) =
  concat (imap (fun i x => flat_map h (g i x)) l).
Proof.
  revert g. induction l as [|x l IH]; intros g; [reflexivity|].
  rewrite !imap_cons. simpl. now rewrite flat_map_app, IH.
Qed.

Lemma final_bind {A B} (m : Go A) (k : A -> Go B) s a s1 e1 :
  m s = Returns a s1 e1 -> final (bind m k s) = final (k a s1).
Proof.
  intros H. rewrite (bind_Returns _ _ _ _ _ _ H). now destruct (k a s1).
Qed.

Lemma events_bind {A B} (m : Go A) (k : A -> Go B) s a s1 e1 :
  m s = Returns a s1 e1 -> events (bind m k s) = e1 ++ events (k a s1).
Proof.
  intros H. rewrite (bind_Returns _ _ _ _ _ _ H). now destruct (k a s1).
Qed.

(** X7. A second sweep on an unchanged network changes nothing: it leaves
    the shared memory as the first sweep left it, stores no flag and prints
    no line. Only changes of reachability are recorded. *)
Theorem sweep_twice_is_quiet net s :
  let s1 := final (sweep net s) in
  final (sweep net s1) = s1 /\
  filter (fun e => is_store e = true) (events (sweep net s1)) = [] /\
  filter (fun e => is_printf e = true) (events (sweep net s1)) = [].
Proof.
  intros s1. subst s1. rewrite (sweep_run net s). simpl.
  rewrite sweep_run. simpl. split; [|split].
  - f_equal. rewrite imap_imap_same. apply imap_ext. reflexivity.
  - rewrite filter_concat_imap. apply concat_imap_nil. intros i nd' Hnd'.
    rewrite list_lookup_imap in Hnd'.
    destruct (nodes s !! i) as [nd|]; [|discriminate].
    inversion Hnd'; subst nd'. rewrite stores_of_check.
    destruct (decide _) as [Hne|]; [|reflexivity]. now elim Hne.
  - rewrite filter_concat_imap. apply concat_imap_nil. intros i nd' Hnd'.
    rewrite list_lookup_imap in Hnd'.
    destruct (nodes s !! i) as [nd|]; [|discriminate].
    inversion Hnd'; subst nd'. rewrite printfs_of_check.
    destruct (decide _) as [Hne|]; [|reflexivity]. now elim Hne.
Qed.

(** X8. Right after a sweep, the handler follows what the sweep observed:
    it only hands a request to a backend whose probe in that sweep
    succeeded, and if every probe failed it answers every dispatching
    request with 502. *)
Theorem dispatch_follows_last_sweep net path s :
  let s1 := final (sweep net s) in
  (forall t proxy,
     result (handler path s1) = Some (ServeHTTP t proxy) ->
     exists nd, nodes s !! t = Some nd /\ observed net t nd = true /\
                proxy = ReverseProxy nd) /\
  (path <> faviconPath ->
   (forall i nd, nodes s !! i = Some nd -> observed net i nd = false) ->
   result (handler path s1) = Some (RespString 502 allDownBody)).
Proof.
  intros s1.
  assert (Hnodes : nodes s1 =
            imap (fun i nd => set_Alive (observed net i nd) nd) (nodes s)).
  { subst s1. now rewrite sweep_run. }
  destruct (handler_outcome path s1)
    as (m & resp & Hrun & _ & _ & Hcase).
  rewrite Hrun. simpl. split.
  - intros t proxy Hres.
    destruct Hcase as [(_ & _ & ->) | [(_ & _ & nd1 & Hnd1 & Halive & ->)
                                     | (_ & _ & -> & _)]];
      try discriminate.
    inversion Hres; subst t proxy. clear Hres.
    remember (slot (length (nodes s1)) (ticket (requestCounter s1) m)) as t0.
    rewrite Hnodes, list_lookup_imap in Hnd1.
    destruct (nodes s !! t0) as [nd|] eqn:Hnd; [|discriminate].
    inversion Hnd1; subst nd1. exists nd. simpl in Halive. auto.
  - intros Hp Hdown.
    destruct Hcase as [(Hfav & _) | [(_ & _ & nd1 & Hnd1 & Halive & _)
                                   | (_ & _ & -> & _)]];
      [contradiction| |reflexivity].
    remember (slot (length (nodes s1)) (ticket (requestCounter s1) m)) as t0.
    rewrite Hnodes, list_lookup_imap in Hnd1.
    destruct (nodes s !! t0) as [nd|] eqn:Hnd; [|discriminate].
    inversion Hnd1; subst nd1. simpl in Halive.
    rewrite (Hdown _ _ Hnd) in Halive. discriminate.
Qed.

Lemma healthCheck_final rounds : forall net s,
  final (healthCheck (S rounds) net s) =
    {| nodes := imap (fun i nd => set_Alive (observed (net rounds) i nd) nd)
                     (nodes s);
       requestCounter := requestCounter s |}.
Proof.
  induction rounds as [|k IH]; intros net s.
  - simpl healthCheck. rewrite (final_bind _ _ _ _ _ _ (sweep_run _ _)).
    reflexivity.
  - change (healthCheck (S (S k)) net s)
      with (bind (sweep (net 0%nat))
                 (fun _ => bind (emit (EvSleep 2))
                   (fun _ => healthCheck (S k) (fun r => net (S r)))) s).
    rewrite (final_bind _ _ _ _ _ _ (sweep_run _ _)).
    erewrite final_bind by reflexivity.
    rewrite IH. simpl. f_equal.
    rewrite imap_imap_same. apply imap_ext. reflexivity.
Qed.

(** X9. After one or more rounds of the health check, every flag is what
    the probe of the last round observed, whatever the flags were before
    and whatever the earlier rounds observed; the counter is untouched. *)
Theorem flags_follow_last_round rounds net s :
  let o := healthCheck (S rounds) net s in
  nodes (final o) =
    imap (fun i nd => set_Alive (observed (net rounds) i nd) nd) (nodes s) /\
  (forall i nd, nodes s !! i = Some nd ->
     alive_at (nodes (final o)) i = observed (net rounds) i nd) /\
  requestCounter (final o) = requestCounter s.
Proof.
  intros o. subst o. rewrite healthCheck_final. simpl.
  split; [reflexivity|]. split; [|reflexivity].
  intros i nd Hnd. unfold alive_at. rewrite list_lookup_imap, Hnd.
  reflexivity.
Qed.

Lemma check_events_conns dial i nd :
  closed_conns (check_events dial i nd) = dialed_conns (check_events dial i nd).
Proof.
  unfold check_events, probe_events.
  destruct (dial _); simpl; destruct (Bool.eqb _ _); reflexivity.
Qed.

Lemma attempt_events_conns l c j :
  closed_conns (attempt_events l c j) = [] /\
  dialed_conns (attempt_events l c j) = [].
Proof.
  unfold attempt_events. destruct (_ !! _) as [nd|]; [|split; reflexivity].
  destruct (Alive nd); split; reflexivity.
Qed.

Lemma attempts_conns l c js :
  closed_conns (flat_map (attempt_events l c) js) =
  dialed_conns (flat_map (attempt_events l c) js).
Proof.
  induction js as [|j js IH]; [reflexivity|].
  destruct (attempt_events_conns l c j) as [Hc Hd].
  unfold closed_conns, dialed_conns in *. simpl.
  now rewrite !flat_map_app, IH, Hc, Hd.
Qed.

Lemma sweep_conns net l :
  closed_conns (concat (imap (fun i nd => check_events (net i) i nd) l)) =
  dialed_conns (concat (imap (fun i nd => check_events (net i) i nd) l)).
Proof.
  unfold closed_conns, dialed_conns. rewrite !flat_map_concat_imap.
  f_equal. apply imap_ext. intros i nd _. apply check_events_conns.
Qed.

Lemma healthCheck_conns rounds : forall net s,
  closed_conns (events (healthCheck rounds net s)) =
  dialed_conns (events (healthCheck rounds net s)).
Proof.
  induction rounds as [|k IH]; intros net s; [reflexivity|].
  simpl healthCheck.
  rewrite (events_bind _ _ _ _ _ _ (sweep_run _ _)).
  erewrite events_bind by reflexivity.
  unfold closed_conns, dialed_conns in *.
  rewrite !flat_map_app. simpl. f_equal; [apply sweep_conns | apply IH].
Qed.

Lemma live_conns acts : forall s,
  closed_conns (events (live acts s)) = dialed_conns (events (live acts s)).
Proof.
  induction acts as [|a acts IH]; intros s; [reflexivity|].
  destruct a as [path|net]; simpl live.
  - destruct (handler_outcome path s) as (m & resp & Hrun & _).
    rewrite (events_bind _ _ _ _ _ _ Hrun).
    destruct (live_run acts (after s m)) as (rs & s' & evs & M & Hlive & _).
    specialize (IH (after s m)).
    rewrite (events_bind _ _ _ _ _ _ Hlive). rewrite Hlive in IH.
    simpl in IH |- *. rewrite app_nil_r.
    pose proof (attempts_conns (nodes s) (requestCounter s) (seq 1 m)) as Ha.
    unfold closed_conns, dialed_conns in *.
    now rewrite !flat_map_app, IH, Ha.
  - rewrite (events_bind _ _ _ _ _ _ (sweep_run _ _)).
    unfold closed_conns, dialed_conns in *. rewrite !flat_map_app.
    f_equal; [apply sweep_conns | apply IH].
Qed.

(** X10. The process leaks no connection: over any number of rounds of the
    health check, and over any sequence of requests and sweeps, the
    connections closed are exactly the connections that successful dials
    returned, in the same order. *)
Theorem every_connection_is_closed :
  (forall rounds net s,
     closed_conns (events (healthCheck rounds net s)) =
     dialed_conns (events (healthCheck rounds net s))) /\
  (forall acts s,
     closed_conns (events (live acts s)) =
     dialed_conns (events (live acts s))).
Proof. split; [exact healthCheck_conns | exact live_conns]. Qed.

Lemma dials_of_check dial i nd :
  dials (check_events dial i nd) = [(Host (URL nd), dial (Host (URL nd)))].
Proof.
  unfold check_events, probe_events.
  destruct (dial _); simpl; destruct (Bool.eqb _ _); reflexivity.
Qed.

(** X11. A sweep probes every backend of the pool exactly once, in pool
    order, whatever its flag: one dial per backend, to the host of its URL.
    A backend marked dead keeps being probed. *)
Theorem sweep_probes_every_backend net s :
  dials (events (sweep net s)) =
    imap (fun i nd => (Host (URL nd), net i (Host (URL nd)))) (nodes s) /\
  length (dials (events (sweep net s))) = length (nodes s).
Proof.
  rewrite sweep_run. simpl.
  assert (H : dials (concat (imap (fun i nd => check_events (net i) i nd)
                                  (nodes s))) =
              imap (fun i nd => (Host (URL nd), net i (Host (URL nd))))
                   (nodes s)).
  { unfold dials at 1. rewrite flat_map_concat_imap.
    rewrite <- (concat_imap_singleton
      (fun i nd => (Host (URL nd), net i (Host (URL nd)))) (nodes s)).
    f_equal. apply imap_ext. intros i nd _. apply dials_of_check. }
  rewrite H. split; [reflexivity | apply length_imap].
Qed.

(** ** Start-up and the way to the backend (lines 70-116, 94-98) *)

Section LaunchProperties.
Variable os_ReadFile : string -> list Byte.byte + string.
Variable json_Unmarshal : list Byte.byte -> Config + string.
Variable url_Parse : string -> url_URL + string.

Lemma accepted_parsed ips :
  map URL (accepted url_Parse ips) = parsed url_Parse ips /\
  map ReverseProxy (accepted url_Parse ips) =
    map (fun u => {| Target := u |}) (parsed url_Parse ips) /\
  (length (accepted url_Parse ips) + length (rejections url_Parse ips) =
     length ips)%nat.
Proof.
  unfold accepted, rejections, parsed.
  induction ips as [|ip ips (IH1 & IH2 & IH3)]; [repeat split|].
  simpl. rewrite !map_app, !length_app, IH1, IH2.
  destruct (url_Parse ip); simpl; repeat split; lia.
Qed.

Lemma elem_of_parsed ips u :
  u ∈ parsed url_Parse ips <-> exists ip, ip ∈ ips /\ url_Parse ip = inl u.
Proof.
  unfold parsed. rewrite list_elem_of_In, in_flat_map. split.
  - intros (ip & Hip & Hu). exists ip. rewrite list_elem_of_In.
    split; [exact Hip|]. destruct (url_Parse ip) as [u'|]; simpl in Hu.
    + destruct Hu as [->|[]]. reflexivity.
    + destruct Hu.
  - intros (ip & Hip & Hu). exists ip. rewrite list_elem_of_In in Hip.
    split; [exact Hip|]. rewrite Hu. now left.
Qed.

Lemma elem_of_rejections ips ip :
  EvPrintf (LogParseFailed ip) ∈ rejections url_Parse ips <->
  ip ∈ ips /\ exists err, url_Parse ip = inr err.
Proof.
  unfold rejections. rewrite list_elem_of_In, in_flat_map. split.
  - intros (ip' & Hip & Hin). destruct (url_Parse ip') as [|err] eqn:E;
      simpl in Hin; [destruct Hin|].
    destruct Hin as [Heq|[]]. inversion Heq; subst ip'.
    rewrite list_elem_of_In. eauto.
  - intros (Hip & err & Herr). exists ip. rewrite list_elem_of_In in Hip.
    split; [exact Hip|]. rewrite Herr. now left.
Qed.

(** X12. Pool construction splits the configured entries in two: every
    entry either becomes a backend or gets one line printed, so the size of
    the pool plus the number of lines is the number of entries. The pool
    holds the URLs of the entries that parse, in the order of the
    configuration, each with a proxy handle built for that URL; the lines
    name exactly the entries that do not parse. *)
Theorem pool_construction_partitions ips :
  let built := buildNodes url_Parse ips in
  (length built.1 + length built.2 = length ips)%nat /\
  map URL built.1 = parsed url_Parse ips /\
  proxy_bound built.1 /\
  (forall u, u ∈ map URL built.1 <->
     exists ip, ip ∈ ips /\ url_Parse ip = inl u) /\
  (forall ip, EvPrintf (LogParseFailed ip) ∈ built.2 <->
     ip ∈ ips /\ exists err, url_Parse ip = inr err).
Proof.
  intros built. subst built. rewrite buildNodes_spec. simpl.
  destruct (accepted_parsed ips) as (Hurl & Hproxy & Hlen).
  split; [exact Hlen|]. split; [exact Hurl|]. split; [|split].
  - unfold proxy_bound, accepted. apply Forall_flat_map, Forall_forall.
    intros ip _. destruct (url_Parse ip); repeat constructor.
  - intros u. rewrite Hurl. apply elem_of_parsed.
  - apply elem_of_rejections.
Qed.

Lemma main_Serving_inv port s0 evs0 :
  main os_ReadFile json_Unmarshal url_Parse = Serving port s0 evs0 ->
  exists config,
    LoadConfig os_ReadFile json_Unmarshal "config.json" = inl config /\
    port = Port config /\
    s0 = {| nodes := accepted url_Parse (Backends config);
            requestCounter := 0 |} /\
    evs0 = rejections url_Parse (Backends config).
Proof.
  unfold main. destruct (LoadConfig _ _ _) as [config|err]; [|discriminate].
  rewrite buildNodes_spec. simpl. intros H. inversion H; subst.
  exists config. auto.
Qed.

(** X13. In a process that [main] launched, after any sequence of requests
    and sweeps: when the handler hands a request to position t, the proxy
    it hands it to was built for the t-th entry of the configuration that
    parses, and its Director sends the request to that URL's host and
    scheme, with the path of the request unchanged. *)
Theorem forwarded_request_reaches_configured_backend
    port s0 evs0 config acts path req t proxy :
  main os_ReadFile json_Unmarshal url_Parse = Serving port s0 evs0 ->
  LoadConfig os_ReadFile json_Unmarshal "config.json" = inl config ->
  result (handler path (final (live acts s0))) = Some (ServeHTTP t proxy) ->
  exists u,
    parsed url_Parse (Backends config) !! t = Some u /\
    Target proxy = u /\
    outgoing (ServeHTTP t proxy) req =
      Some {| req_Host := Host u;
              req_URL := {| Scheme := Scheme u; Host := Host u |};
              req_Path := req_Path req |}.
Proof.
  intros Hmain Hload Hres.
  destruct (main_Serving_inv _ _ _ Hmain) as (config' & Hload' & _ & -> & _).
  rewrite Hload in Hload'. inversion Hload'; subst config'. clear Hload'.
  destruct (live_run acts
              {| nodes := accepted url_Parse (Backends config);
                 requestCounter := 0 |})
    as (rs & s & evs & M & Hlive & _ & Hproxy & _).
  rewrite Hlive in Hres. simpl in Hres, Hproxy.
  destruct (handler_outcome path s) as (m & resp & Hrun & _ & _ & Hcase).
  rewrite Hrun in Hres. simpl in Hres.
  destruct Hcase as [(_ & _ & ->) | [(_ & _ & nd & Hnd & _ & ->)
                                   | (_ & _ & -> & _)]];
    try discriminate.
  inversion Hres; subst t proxy. clear Hres.
  remember (slot (length (nodes s)) (ticket (requestCounter s) m)) as t.
  assert (Hp : map ReverseProxy (nodes s) !! t = Some (ReverseProxy nd)).
  { change (map ReverseProxy (nodes s)) with (ReverseProxy <$> nodes s).
    now rewrite list_lookup_fmap, Hnd. }
  rewrite Hproxy in Hp.
  rewrite (proj1 (proj2 (accepted_parsed (Backends config)))) in Hp.
  change (map (fun u => {| Target := u |}) (parsed url_Parse (Backends config)))
    with ((fun u => {| Target := u |}) <$> parsed url_Parse (Backends config))
    in Hp.
  rewrite list_lookup_fmap in Hp.
  destruct (parsed url_Parse (Backends config) !! t) as [u|]; [|discriminate].
  simpl in Hp. injection Hp as Hu. exists u. rewrite <- Hu. simpl. auto.
Qed.

Lemma no_dispatch_filter acts :
  Forall (fun a => is_dispatch_request a = false) acts ->
  filter (fun a => is_dispatch_request a = true) acts = [].
Proof.
  induction 1 as [|a acts Ha _ IH]; [reflexivity|].
  rewrite filter_cons_False by congruence. exact IH.
Qed.

Lemma live_requests_keep_nodes acts : forall s,
  Forall (fun a => is_request a = true) acts ->
  nodes (final (live acts s)) = nodes s.
Proof.
  induction acts as [|a acts IH]; intros s Hreq; [reflexivity|].
  inversion Hreq as [|? ? Ha Hrest]; subst.
  destruct a as [path|net]; [|discriminate].
  destruct (handler_outcome path s) as (m & resp & Hrun & _).
  destruct (live_run acts (after s m)) as (rs & s' & evs & M & Hlive & _).
  specialize (IH (after s m) Hrest). rewrite Hlive in IH. simpl in IH.
  simpl live. rewrite (final_bind _ _ _ _ _ _ Hrun).
  rewrite (final_bind _ _ _ _ _ _ Hlive). simpl.
  now rewrite IH, nodes_after.
Qed.

(** X14. The first dispatching request after launch, whatever sweeps and
    favicon requests came before it, finds the counter at 0, draws ticket 1
    and inspects the backend at position 1 mod N first (the second entry
    that parses, or the only one). It is handed to that backend whenever
    that backend's flag is set, which is the case as long as no sweep has
    run, since every backend starts alive. *)
Theorem first_dispatch_tries_second_backend port s0 evs0 acts path :
  main os_ReadFile json_Unmarshal url_Parse = Serving port s0 evs0 ->
  (1 <= length (nodes s0))%nat ->
  path <> faviconPath ->
  Forall (fun a => is_dispatch_request a = false) acts ->
  let s := final (live acts s0) in
  let t := (1 mod length (nodes s0))%nat in
  requestCounter s = 0 /\
  exists nd,
    nodes s !! t = Some nd /\
    take 2 (events (handler path s)) =
      [EvAdd AtomicAccess LrequestCounter 1;
       EvLoad PlainAccess (LAlive t) (Alive nd)] /\
    (Alive nd = true ->
     handler path s =
       Returns (ServeHTTP t (ReverseProxy nd)) (with_counter s 1)
               [EvAdd AtomicAccess LrequestCounter 1;
                EvLoad PlainAccess (LAlive t) true;
                EvPrintf (LogRouted 1 (Host (URL nd)))]) /\
    (Forall (fun a => is_request a = true) acts -> Alive nd = true).
Proof.
  intros Hmain Hn Hp Hnodispatch s t.
  destruct (main_Serving_inv _ _ _ Hmain) as (config & _ & _ & Hs0 & _).
  assert (Hall0 : Forall (fun nd => Alive nd = true) (nodes s0)).
  { rewrite Hs0. simpl. apply accepted_alive. }
  assert (Hc0 : requestCounter s0 = 0) by (rewrite Hs0; reflexivity).
  destruct (live_run acts s0)
    as (rs & s' & evs & M & Hlive & Hurl & _ & Hctr & _ & _ & Hub & _).
  rewrite (no_dispatch_filter _ Hnodispatch) in Hub. simpl in Hub.
  assert (M = 0%nat) by lia. subst M. simpl in Hctr.
  assert (Hs : s = s') by (subst s; now rewrite Hlive).
  assert (Hc : requestCounter s = 0) by (rewrite Hs, Hctr; exact Hc0).
  assert (Hlen : length (nodes s) = length (nodes s0)).
  { rewrite Hs, <- (length_map URL (nodes s')), Hurl. apply length_map. }
  assert (Hslot : slot (length (nodes s)) (ticket 0 1) = t).
  { unfold slot, t. rewrite Hlen. change (ticket 0 1) with (Z.of_nat 1).
    now rewrite <- Nat2Z.inj_mod, Nat2Z.id. }
  assert (Hne : nodes s <> []).
  { apply nonempty_length. lia. }
  destruct (lookup_lt_is_Some_2 (nodes s) t) as [nd Hnd].
  { rewrite Hlen. apply Nat.mod_upper_bound. lia. }
  destruct (handler_run path s Hp Hne)
    as (m & resp & Hrun & Hm & Hdead & Hres).
  rewrite Hc in Hrun, Hdead, Hres.
  assert (Hfirst : attempt_events (nodes s) 0 1 =
            EvAdd AtomicAccess LrequestCounter 1
            :: EvLoad PlainAccess (LAlive t) (Alive nd)
            :: (if Alive nd
                then [EvPrintf (LogRouted 1 (Host (URL nd)))] else [])).
  { unfold attempt_events. rewrite Hslot, Hnd. reflexivity. }
  split; [exact Hc|]. exists nd. split; [exact Hnd|]. split; [|split].
  - rewrite Hrun. simpl. destruct m as [|m]; [lia|]. simpl.
    rewrite Hfirst. reflexivity.
  - intros Halive.
    assert (m = 1%nat) as ->.
    { destruct (decide (m = 1%nat)) as [|Hm1]; [assumption|].
      specialize (Hdead 1%nat ltac:(lia)). rewrite Hslot in Hdead.
      unfold alive_at in Hdead. rewrite Hnd in Hdead. congruence. }
    rewrite Hslot in Hres.
    destruct Hres as [(nd' & Hnd' & _ & ->) | (_ & _ & Hnone)].
    + rewrite Hnd in Hnd'. inversion Hnd'; subst nd'.
      rewrite Hrun. simpl. rewrite app_nil_r, Hfirst, Halive. reflexivity.
    + specialize (Hnone 1%nat ltac:(lia)). rewrite Hslot in Hnone.
      unfold alive_at in Hnone. rewrite Hnd in Hnone. congruence.
  - intros Hreq.
    assert (Hsame : nodes s = nodes s0).
    { subst s. now apply live_requests_keep_nodes. }
    rewrite Hsame in Hnd.
    exact (proj1 (Forall_lookup _ _) Hall0 _ _ Hnd).
Qed.
End LaunchProperties.

Lemma forwarded_request_reaches_configured_backend_witness :
  exists u,
    parsed fixture_Parse (Backends sampleConfig) !! 0%nat = Some u /\
    Target {| Target := {| Scheme := "http"; Host := "a:1" |} |} = u /\
    outgoing (ServeHTTP 0 {| Target := {| Scheme := "http"; Host := "a:1" |} |})
             {| req_Host := "lb:8080";
                req_URL := {| Scheme := ""; Host := "" |};
                req_Path := "/api" |} =
      Some {| req_Host := Host u;
              req_URL := {| Scheme := Scheme u; Host := Host u |};
              req_Path := "/api" |}.
Proof.
  refine (forwarded_request_reaches_configured_backend
            fixture_ReadFile (fixture_Unmarshal sampleConfig) fixture_Parse
            ":8080"
            {| nodes := [mkBackend "a:1" true; mkBackend "b:2" true];
               requestCounter := 0 |}
            [EvPrintf (LogParseFailed "://bad")]
            sampleConfig [Request "/"; Sweep accepting] "/api"
            {| req_Host := "lb:8080";
               req_URL := {| Scheme := ""; Host := "" |};
               req_Path := "/api" |}
            0%nat {| Target := {| Scheme := "http"; Host := "a:1" |} |}
            _ _ _); reflexivity.
Defined.

Lemma first_dispatch_tries_second_backend_witness :
  let s0 := {| nodes := [mkBackend "a:1" true; mkBackend "b:2" true];
               requestCounter := 0 |} in
  let s := final (live [Sweep accepting; Request faviconPath] s0) in
  requestCounter s = 0 /\
  exists nd,
    nodes s !! 1%nat = Some nd /\
    take 2 (events (handler "/" s)) =
      [EvAdd AtomicAccess LrequestCounter 1;
       EvLoad PlainAccess (LAlive 1) (Alive nd)] /\
    (Alive nd = true ->
     handler "/" s =
       Returns (ServeHTTP 1 (ReverseProxy nd)) (with_counter s 1)
               [EvAdd AtomicAccess LrequestCounter 1;
                EvLoad PlainAccess (LAlive 1) true;
                EvPrintf (LogRouted 1 (Host (URL nd)))]) /\
    (Forall (fun a => is_request a = true)
            [Sweep accepting; Request faviconPath] -> Alive nd = true).
Proof.
  refine (first_dispatch_tries_second_backend
            fixture_ReadFile (fixture_Unmarshal sampleConfig) fixture_Parse
            ":8080"
            {| nodes := [mkBackend "a:1" true; mkBackend "b:2" true];
               requestCounter := 0 |}
            [EvPrintf (LogParseFailed "://bad")]
            [Sweep accepting; Request faviconPath] "/" _ _ _ _).
  - reflexivity.
  - simpl. lia.
  - discriminate.
  - repeat constructor.
Defined.

(** ** A handler among other handlers *)

Lemma othersAdd_run k : forall s,
  exists s' evs,
    othersAdd k s = Returns tt s' evs /\
    nodes s' = nodes s /\
    Forall (fun e => is_add e = true) evs.
Proof.
  induction k as [|k IH]; intros s.
  - exists s, []. repeat split. constructor.
  - destruct (IH (with_counter s (ticket (requestCounter s) 1)))
      as (s' & evs & Hrest & Hnodes & Hadds).
    exists s', (EvAdd AtomicAccess LrequestCounter
                      (ticket (requestCounter s) 1) :: evs).
    split; [|split; [exact Hnodes|]].
    + simpl othersAdd. unfold bind at 1, atomic_AddUint64.
      change {| nodes := nodes s;
                requestCounter := wrap64 (requestCounter s + 1) |}
        with (with_counter s (ticket (requestCounter s) 1)).
      now rewrite Hrest.
    + constructor; [reflexivity | exact Hadds].
Qed.

Lemma adds_have_no_load evs :
  Forall (fun e => is_add e = true) evs ->
  filter (fun e => is_alive_load e = true) evs = [] /\
  Forall (fun e => is_store e = false) evs.
Proof.
  induction 1 as [|e evs He _ [IH1 IH2]]; [split; constructor|].
  destruct e as [| |m l v| | | |]; try discriminate.
  rewrite filter_cons. simpl. split; [exact IH1|].
  constructor; [reflexivity | exact IH2].
Qed.

Lemma selectLoopAmong_run r : forall others s,
  nodes s <> [] ->
  exists res s' evs,
    selectLoopAmong others r s = Returns res s' evs /\
    nodes s' = nodes s /\
    Forall (fun e => is_store e = false) evs /\
    (length (filter (fun e => is_alive_load e = true) evs) <= r)%nat /\
    (forall t, res = Some t ->
       exists nd, nodes s !! t = Some nd /\ Alive nd = true) /\
    (res = None ->
       length (filter (fun e => is_alive_load e = true) evs) = r) /\
    (Forall (fun nd => Alive nd = false) (nodes s) -> res = None).
Proof.
  induction r as [|r IH]; intros others s Hne.
  - exists None, s, []. simpl. repeat split; try constructor; try lia.
    intros t Ht. discriminate.
  - destruct (othersAdd_run (hd 0%nat others) s)
      as (s0 & evs0 & Hothers & Hnodes0 & Hadds0).
    destruct (adds_have_no_load _ Hadds0) as [Hload0 Hstore0].
    assert (Hne0 : nodes s0 <> []) by now rewrite Hnodes0.
    assert (Hlen : (0 < length (nodes s0))%nat).
    { destruct (nodes s0); [congruence | simpl; lia]. }
    destruct (lookup_lt_is_Some_2 (nodes s0)
                (slot (length (nodes s0)) (ticket (requestCounter s0) 1)))
      as [nd Hnd]; [now apply slot_lt|].
    pose proof (attempt_run s0 nd Hnd) as Hrun.
    destruct (attempt_events_alive_at (nodes s0) (requestCounter s0) 1 Hne0)
      as (nd' & Hnd' & Hevs).
    rewrite Hnd in Hnd'. inversion Hnd'; subst nd'. clear Hnd'.
    assert (Halive_at : alive_at (nodes s0)
              (slot (length (nodes s0)) (ticket (requestCounter s0) 1)) =
              Alive nd).
    { unfold alive_at. now rewrite Hnd. }
    rewrite Halive_at in Hevs. rewrite Hevs in Hrun. clear Hevs.
    simpl selectLoopAmong.
    rewrite (bind_Returns _ _ _ _ _ _ Hothers).
    rewrite (bind_Returns _ _ _ _ _ _ Hrun).
    destruct (Alive nd) eqn:Ealive.
    + eexists _, _, _. split; [reflexivity|]. simpl.
      split; [exact Hnodes0|]. split; [|split; [|split; [|split]]].
      * apply Forall_app. split; [exact Hstore0|]. repeat constructor.
      * rewrite filter_app, Hload0. simpl. lia.
      * intros t Ht. inversion Ht; subst t. rewrite <- Hnodes0.
        exists nd. auto.
      * discriminate.
      * intros Hdead. rewrite <- Hnodes0 in Hdead.
        pose proof (proj1 (Forall_lookup _ _) Hdead _ _ Hnd). congruence.
    + destruct (IH (tl others)
                   (with_counter s0 (ticket (requestCounter s0) 1)) Hne0)
        as (res & s' & evs & Hloop & Hnodes & Hstores & Hle & Hsel & Hnone
            & Hdead).
      simpl in Hnodes, Hsel, Hdead.
      rewrite Hloop. eexists _, _, _. split; [reflexivity|].
      split; [now rewrite Hnodes|]. split; [|split; [|split; [|split]]].
      * apply Forall_app. split; [exact Hstore0|].
        repeat constructor. exact Hstores.
      * rewrite !filter_app, Hload0, !length_app. simpl. lia.
      * intros t Ht. rewrite <- Hnodes0. now apply Hsel.
      * intros Hres. rewrite !filter_app, Hload0, !length_app. simpl.
        now rewrite Hnone.
      * intros Hd. apply Hdead. now rewrite Hnodes0.
Qed.

(** X15. However many tickets the handlers of other requests draw between
    the attempts of a call, the call never panics, never stores to a
    backend, reads at most one flag per backend of the pool, and hands a
    request only to a backend whose flag is set, with that backend's proxy.
    If every backend is dead it answers 502 after reading exactly N flags. *)
Theorem dispatch_among_other_handlers others path s :
  exists resp s' evs,
    handlerAmong others path s = Returns resp s' evs /\
    nodes s' = nodes s /\
    Forall (fun e => is_store e = false) evs /\
    (length (filter (fun e => is_alive_load e = true) evs)
       <= length (nodes s))%nat /\
    (forall t proxy, resp = ServeHTTP t proxy ->
       exists nd, nodes s !! t = Some nd /\ Alive nd = true /\
                  proxy = ReverseProxy nd) /\
    (path <> faviconPath ->
     Forall (fun nd => Alive nd = false) (nodes s) ->
     resp = RespString 502 allDownBody /\
     length (filter (fun e => is_alive_load e = true) evs) =
       length (nodes s)).
Proof.
  unfold handlerAmong.
  destruct (String.eqb_spec path faviconPath) as [->|Hp].
  { exists (AbortWithStatus 204), s, []. unfold ret.
    split; [reflexivity|]. split; [reflexivity|].
    split; [constructor|]. split; [simpl; lia|].
    split; [intros t proxy H; discriminate|]. intros H. now elim H. }
  rewrite bind_len_nodes, Nat2Z.id.
  destruct (nodes s) as [|nd0 l0] eqn:Hl.
  { exists (RespString 502 allDownBody), s, []. simpl.
    split; [reflexivity|]. split; [exact Hl|].
    split; [constructor|]. split; [lia|].
    split; [intros t proxy H; discriminate|]. auto. }
  assert (Hne : nodes s <> []) by (rewrite Hl; congruence).
  destruct (selectLoopAmong_run (length (nd0 :: l0)) others s Hne)
    as (res & s' & evs & Hloop & Hnodes & Hstores & Hle & Hsel & Hnone
        & Hdead).
  rewrite (bind_Returns _ _ _ _ _ _ Hloop).
  destruct res as [t|].
  - destruct (Hsel t eq_refl) as (nd & Hnd & Halive).
    unfold bind, node_ReverseProxy, ret. rewrite Hnodes, Hnd. simpl.
    eexists _, _, _. split; [reflexivity|]. rewrite !app_nil_r.
    split; [now rewrite Hnodes, Hl|]. split; [exact Hstores|].
    split; [exact Hle|]. split.
    + intros t' proxy H. inversion H; subst t' proxy.
      exists nd. rewrite <- Hl. auto.
    + intros _ Hall. rewrite <- Hl in Hall.
      specialize (Hdead Hall). discriminate.
  - unfold ret. eexists _, _, _. split; [reflexivity|]. rewrite app_nil_r.
    split; [now rewrite Hnodes, Hl|]. split; [exact Hstores|].
    split; [exact Hle|]. split; [intros t proxy H; discriminate|].
    intros _ _. split; [reflexivity | now apply Hnone].
Qed.

(** ** Fairness of the rotation *)

Lemma filter_absent (l : list nat) i :
  i ∉ l -> filter (fun x => x = i) l = [].
Proof.
  induction l as [|x l IH]; intros Hi; [reflexivity|].
  apply not_elem_of_cons in Hi. destruct Hi as [Hne Hi].
  rewrite filter_cons_False by congruence. now apply IH.
Qed.

Lemma count_in_NoDup (l : list nat) i :
  NoDup l -> i ∈ l -> length (filter (fun x => x = i) l) = 1%nat.
Proof.
  induction 1 as [|x l Hx Hl IH]; intros Hi; [inversion Hi|].
  rewrite filter_cons. destruct (decide (x = i)) as [->|Hne].
  - simpl. now rewrite filter_absent.
  - apply IH. apply elem_of_cons in Hi. destruct Hi; congruence.
Qed.

(** The positions that [n] consecutive integers select are pairwise
    distinct. *)
Lemma residues_distinct n a :
  (1 <= n)%nat ->
  NoDup (map (fun j => Z.to_nat ((a + Z.of_nat j) mod Z.of_nat n)) (seq 1 n)).
Proof.
  intros Hn.
  apply (NoDup_fmap_2_strong
           (fun j => Z.to_nat ((a + Z.of_nat j) mod Z.of_nat n)));
    [|apply NoDup_seq].
  intros i j Hi Hj Heq.
  apply elem_of_seq in Hi. apply elem_of_seq in Hj.
  pose proof (Z.mod_pos_bound (a + Z.of_nat i) (Z.of_nat n) ltac:(lia)).
  pose proof (Z.mod_pos_bound (a + Z.of_nat j) (Z.of_nat n) ltac:(lia)).
  apply Z2Nat.inj in Heq; [|lia|lia].
  assert (Hdiv : (Z.of_nat n | (a + Z.of_nat i) - (a + Z.of_nat j))).
  { apply Z.mod_divide; [lia|].
    rewrite Zminus_mod, Heq, Z.sub_diag. reflexivity. }
  destruct Hdiv as [q Hq]. assert (q = 0) by nia. subst q. lia.
Qed.

(** Among [k * n] consecutive integers every position is selected [k]
    times. *)
Lemma residues_counted n a k i :
  (1 <= n)%nat -> (i < n)%nat ->
  length (filter (fun x => x = i)
            (map (fun j => Z.to_nat ((a + Z.of_nat j) mod Z.of_nat n))
                 (seq 1 (k * n)))) = k.
Proof.
  intros Hn Hi. induction k as [|k IH]; [reflexivity|].
  replace (S k * n)%nat with (n + k * n)%nat by lia.
  rewrite seq_app, map_app, filter_app, length_app.
  rewrite count_in_NoDup.
  - f_equal. rewrite <- IH at 2. f_equal. f_equal.
    replace (1 + n)%nat with (n + 1)%nat by lia.
    rewrite <- (fmap_add_seq n 1 (k * n)).
    change (fmap (Nat.add n) (seq 1 (k * n)))
      with (map (Nat.add n) (seq 1 (k * n))).
    rewrite map_map. apply map_ext. intros j. f_equal.
    rewrite Nat2Z.inj_add.
    replace (a + (Z.of_nat n + Z.of_nat j))
      with (a + Z.of_nat j + 1 * Z.of_nat n) by lia.
    apply Z.mod_add. lia.
  - now apply residues_distinct.
  - destruct (window_covers n a i Hi) as (j & Hj & Hslot).
    apply list_elem_of_fmap. exists j. split; [now rewrite Hslot|].
    apply elem_of_seq. lia.
Qed.

(** X16. The rotation is fair: in a pool of N >= 1 backends that are all
    alive, k * N consecutive dispatching calls hand exactly k requests to
    each backend, as long as the counter does not wrap around 2^64 in
    between (or N divides 2^64). *)
Theorem round_robin_is_fair paths s k :
  (1 <= length (nodes s))%nat ->
  Forall (fun nd => Alive nd = true) (nodes s) ->
  Forall (fun path => path <> faviconPath) paths ->
  let n := length (nodes s) in
  let c := requestCounter s in
  length paths = (k * n)%nat ->
  (0 <= c /\ c + Z.of_nat (k * n) < uint64_modulus) \/
    uint64_modulus mod Z.of_nat n = 0 ->
  exists rs,
    result (serveAll paths s) = Some rs /\
    forall i, (i < n)%nat ->
      length (filter (fun o => o = Some i) (map targetOf rs)) = k.
Proof.
  intros Hn Hall Hpaths n c Hlen Hwrap.
  destruct (serveAll_all_alive paths s Hn Hall Hpaths)
    as (rs & evs & Hserve & Htargets & _).
  fold n c in Htargets. rewrite Hlen in Htargets.
  exists rs. rewrite Hserve. split; [reflexivity|]. intros i Hi.
  rewrite Htargets.
  rewrite <- (residues_counted n c k i Hn Hi) at 2.
  assert (Hmap : map (fun j => Some (slot n (ticket c j))) (seq 1 (k * n)) =
                 map Some (map (fun j =>
                   Z.to_nat ((c + Z.of_nat j) mod Z.of_nat n))
                   (seq 1 (k * n)))).
  { rewrite map_map. apply map_ext_in. intros j Hj. apply in_seq in Hj.
    f_equal. apply slot_ticket_unwrapped; [exact Hn|].
    destruct Hwrap as [[Hc Hw]|Hdiv]; [left; lia | right; exact Hdiv]. }
  rewrite Hmap. generalize (map (fun j =>
                   Z.to_nat ((c + Z.of_nat j) mod Z.of_nat n))
                   (seq 1 (k * n))).
  intros l. induction l as [|x l IH]; [reflexivity|].
  simpl map. rewrite !filter_cons.
  destruct (decide (Some x = Some i)) as [E|E];
    destruct (decide (x = i)) as [E'|E']; simpl; try congruence.
Qed.

Lemma round_robin_is_fair_witness :
  exists rs,
    result (serveAll ["/"; "/a"; "/b"; "/c"; "/d"; "/e"]%string
                     (pool [true; true; true] 5)) = Some rs /\
    forall i, (i < 3)%nat ->
      length (filter (fun o => o = Some i) (map targetOf rs)) = 2%nat.
Proof.
  refine (round_robin_is_fair ["/"; "/a"; "/b"; "/c"; "/d"; "/e"]%string
            (pool [true; true; true] 5) 2 _ _ _ _ _).
  - simpl. lia.
  - repeat constructor.
  - repeat constructor; discriminate.
  - reflexivity.
  - left. simpl. unfold uint64_modulus. lia.
Defined.

(** ** Loading the configuration (lines 48-76) *)

(** X17. The launch is aborted exactly when the configuration cannot be
    loaded: when [config.json] cannot be read, or when its content does not
    unmarshal, and then with that very error. Nothing in the backend list
    aborts it. *)
Theorem launch_aborts_exactly_on_load_failure
    (os_ReadFile : string -> list Byte.byte + string)
    (json_Unmarshal : list Byte.byte -> Config + string)
    (url_Parse : string -> url_URL + string) (p : panic) :
  main os_ReadFile json_Unmarshal url_Parse = Crashed p <->
  (exists err, p = ConfigError err /\
     (os_ReadFile "config.json" = inr err \/
      exists data, os_ReadFile "config.json" = inl data /\
                   json_Unmarshal data = inr err)).
Proof.
  unfold main, LoadConfig.
  destruct (os_ReadFile "config.json") as [data|err] eqn:Hread.
  - destruct (json_Unmarshal data) as [config|err] eqn:Hparse.
    + split; [discriminate|].
      intros (err & _ & [H | (data' & H & H')]); [discriminate|].
      inversion H; subst. congruence.
    + split.
      * intros H. inversion H; subst. exists err. split; [reflexivity|].
        right. exists data. auto.
      * intros (err' & -> & [H | (data' & H & H')]); [discriminate|].
        inversion H; subst. congruence.
  - split.
    + intros H. inversion H; subst. exists err. auto.
    + intros (err' & -> & [H | (data' & H & _)]); [|discriminate].
      inversion H; subst. reflexivity.
Qed.
